(** * padlocal-client-ts: the action-stream client and the file pipeline

    A shallow embedding of [src/GrpcClient.ts] (the duplex-stream client:
    sequence/acknowledgement correlation, the pending-callback table, the
    connection status) and of [src/utils/FileUtils.ts] (upload encryption
    metadata, image upload preparation, file download), with the properties
    the specification states about them. *)

From stdpp Require Import gmap list strings pretty sorting.
From Stdlib Require Import NArith ZArith Strings.Byte.

Local Open Scope string_scope.
Local Open Scope list_scope.

(** Byte buffers ([Bytes], [Buffer], [Uint8Array]). *)
Definition Bytes : Type := list Byte.byte.

(* ===================================================================== *)
(** * GrpcClient.ts *)
(* ===================================================================== *)

Module GrpcClient.

(** ** Data *)

(** [export enum Status]. *)
Inductive Status : Type :=
  | OK
  | SERVER_ERROR
  | SERVER_COMPLETE
  | CLIENT_ERROR
  | CLIENT_COMPLETE.

#[global] Instance Status_eq_dec : EqDecision Status.
Proof. solve_decision. Defined.

(** The error values the client builds or is handed.  [Err] is a plain
    [Error] (also any error an outside collaborator raises);
    [IOError] and [SubRequestCancelError] are the two [VError] subclasses of
    the file, each with its optional cause. *)
#[warnings="-register-all"]
Inductive Error : Type :=
  | Err (message : string)
  | IOError (cause : option Error) (message : string)
  | SubRequestCancelError (reason : Status) (cause : option Error) (message : string).

Definition StatusName (s : Status) : string :=
  match s with
  | OK => "OK"
  | SERVER_ERROR => "SERVER_ERROR"
  | SERVER_COMPLETE => "SERVER_COMPLETE"
  | CLIENT_ERROR => "CLIENT_ERROR"
  | CLIENT_COMPLETE => "CLIENT_COMPLETE"
  end.

(** [new SubRequestCancelError(traceId, reason, cause?, message?)]. *)
Definition newSubRequestCancelError
    (traceId : string) (reason : Status) (cause : option Error)
    (message : option string) : Error :=
  SubRequestCancelError reason cause
    ("[tid:" +:+ traceId +:+ "] request has been cancelled for reason: "
       +:+ StatusName reason
       +:+ match message with Some m => ", " +:+ m | None => "" end).

(** [WeChatRequest] with its [RequestCase]: the three proxied requests the
    client forwards, and any other case (REQUEST_NOT_SET included). *)
Inductive WeChatRequest : Type :=
  | SOCKETREQUEST (host : string) (payload : Bytes)
  | LONGLINKREQUEST (seq : N) (payload : Bytes) (initmode : bool)
  | SHORTLINKREQUEST (host : string) (port : N) (path : string) (payload : Bytes)
  | REQUEST_OTHER (requestCase : N).

Inductive WeChatResponse : Type :=
  | LONGLINKRESPONSE (payload : Bytes)
  | SHORTLINKRESPONSE (payload : Bytes).

(** The payload of an [ActionMessage] by its [PayloadCase]; the cases the
    client does not look into are kept as their case number and body. *)
Inductive Payload : Type :=
  | WECHATREQUEST (r : WeChatRequest)
  | WECHATRESPONSE (r : WeChatResponse)
  | SYSTEMEVENTREQUEST (body : Bytes)
  | SYSTEMEVENTRESPONSE
  | PAYLOAD_OTHER (payloadCase : N) (body : Bytes).

(** [ActionMessage] with its [ActionMessageHeader]: [setSeq] and [setAck]
    are called or not, and the getters answer 0 for a field never set. *)
Record ActionMessage : Type := {
  hdr_seq : option N;
  hdr_ack : option N;
  msg_payload : Payload
}.

Definition getSeq (m : ActionMessage) : N := default 0%N (hdr_seq m).
Definition getAck (m : ActionMessage) : N := default 0%N (hdr_ack m).
Definition getPayload (m : ActionMessage) : Payload := msg_payload m.

(** [SubResponseWrap]: what a correlated request resolves with. *)
Record SubResponseWrap : Type := {
  sr_payload : Payload;
  sr_ack : N
}.

(** A promise handed to a caller of [_sendMessage]: settled at most once. *)
Inductive PromiseState : Type :=
  | Pending
  | Resolved (w : SubResponseWrap)
  | Rejected (e : Error).

(** A handle of [setTimeout]: the sequence number its callback captured and
    the delay it was armed with. *)
Record Timer : Type := {
  t_seq : N;
  t_delay : N
}.

(** [PromiseCallback(resolve, reject, timeoutId)]: the promise whose
    [resolve] and [reject] it holds (by creation index) and its timer. *)
Record PromiseCallback : Type := {
  pc_promise : nat;
  pc_timeoutId : nat
}.

(** What the outside callbacks were handed. *)
Inductive Delivery : Type :=
  | OnMessage (m : ActionMessage)
  | OnSystemEvent (body : Bytes).

(** The instance, with the objects it acts on written out: the stream it
    owns ([written], [cancelled], [ended] record the calls of
    [_grpcStream.write], [.cancel] and [.end]), the promises it created,
    the timers it armed, the proxied requests whose transport has not
    answered yet, what it handed to the two callbacks, and the rejections of
    promises nobody listens to ([subReply] drops the promise of
    [_sendMessage]). *)
Record GrpcClient : Type := {
  traceId : string;
  _status : Status;
  _seqId : N;
  _requestTimeout : N;
  _pendingCallbacks : gmap N PromiseCallback;
  written : list ActionMessage;
  cancelled : nat;
  ended : nat;
  promises : list PromiseState;
  timers : list (option Timer);
  forwarding : list (WeChatRequest * N);
  delivered : list Delivery;
  unhandled : list Error
}.

Definition set_status (s : Status) (c : GrpcClient) : GrpcClient :=
  {| traceId := traceId c; _status := s; _seqId := _seqId c;
     _requestTimeout := _requestTimeout c;
     _pendingCallbacks := _pendingCallbacks c; written := written c;
     cancelled := cancelled c; ended := ended c; promises := promises c;
     timers := timers c; forwarding := forwarding c;
     delivered := delivered c; unhandled := unhandled c |}.

Definition set_seqId (n : N) (c : GrpcClient) : GrpcClient :=
  {| traceId := traceId c; _status := _status c; _seqId := n;
     _requestTimeout := _requestTimeout c;
     _pendingCallbacks := _pendingCallbacks c; written := written c;
     cancelled := cancelled c; ended := ended c; promises := promises c;
     timers := timers c; forwarding := forwarding c;
     delivered := delivered c; unhandled := unhandled c |}.

Definition set_pending (m : gmap N PromiseCallback) (c : GrpcClient) : GrpcClient :=
  {| traceId := traceId c; _status := _status c; _seqId := _seqId c;
     _requestTimeout := _requestTimeout c;
     _pendingCallbacks := m; written := written c;
     cancelled := cancelled c; ended := ended c; promises := promises c;
     timers := timers c; forwarding := forwarding c;
     delivered := delivered c; unhandled := unhandled c |}.

Definition set_written (w : list ActionMessage) (c : GrpcClient) : GrpcClient :=
  {| traceId := traceId c; _status := _status c; _seqId := _seqId c;
     _requestTimeout := _requestTimeout c;
     _pendingCallbacks := _pendingCallbacks c; written := w;
     cancelled := cancelled c; ended := ended c; promises := promises c;
     timers := timers c; forwarding := forwarding c;
     delivered := delivered c; unhandled := unhandled c |}.

Definition set_cancelled (n : nat) (c : GrpcClient) : GrpcClient :=
  {| traceId := traceId c; _status := _status c; _seqId := _seqId c;
     _requestTimeout := _requestTimeout c;
     _pendingCallbacks := _pendingCallbacks c; written := written c;
     cancelled := n; ended := ended c; promises := promises c;
     timers := timers c; forwarding := forwarding c;
     delivered := delivered c; unhandled := unhandled c |}.

Definition set_ended (n : nat) (c : GrpcClient) : GrpcClient :=
  {| traceId := traceId c; _status := _status c; _seqId := _seqId c;
     _requestTimeout := _requestTimeout c;
     _pendingCallbacks := _pendingCallbacks c; written := written c;
     cancelled := cancelled c; ended := n; promises := promises c;
     timers := timers c; forwarding := forwarding c;
     delivered := delivered c; unhandled := unhandled c |}.

Definition set_promises (p : list PromiseState) (c : GrpcClient) : GrpcClient :=
  {| traceId := traceId c; _status := _status c; _seqId := _seqId c;
     _requestTimeout := _requestTimeout c;
     _pendingCallbacks := _pendingCallbacks c; written := written c;
     cancelled := cancelled c; ended := ended c; promises := p;
     timers := timers c; forwarding := forwarding c;
     delivered := delivered c; unhandled := unhandled c |}.

Definition set_timers (t : list (option Timer)) (c : GrpcClient) : GrpcClient :=
  {| traceId := traceId c; _status := _status c; _seqId := _seqId c;
     _requestTimeout := _requestTimeout c;
     _pendingCallbacks := _pendingCallbacks c; written := written c;
     cancelled := cancelled c; ended := ended c; promises := promises c;
     timers := t; forwarding := forwarding c;
     delivered := delivered c; unhandled := unhandled c |}.

Definition set_forwarding (f : list (WeChatRequest * N)) (c : GrpcClient) : GrpcClient :=
  {| traceId := traceId c; _status := _status c; _seqId := _seqId c;
     _requestTimeout := _requestTimeout c;
     _pendingCallbacks := _pendingCallbacks c; written := written c;
     cancelled := cancelled c; ended := ended c; promises := promises c;
     timers := timers c; forwarding := f;
     delivered := delivered c; unhandled := unhandled c |}.

Definition set_delivered (d : list Delivery) (c : GrpcClient) : GrpcClient :=
  {| traceId := traceId c; _status := _status c; _seqId := _seqId c;
     _requestTimeout := _requestTimeout c;
     _pendingCallbacks := _pendingCallbacks c; written := written c;
     cancelled := cancelled c; ended := ended c; promises := promises c;
     timers := timers c; forwarding := forwarding c;
     delivered := d; unhandled := unhandled c |}.

Definition set_unhandled (u : list Error) (c : GrpcClient) : GrpcClient :=
  {| traceId := traceId c; _status := _status c; _seqId := _seqId c;
     _requestTimeout := _requestTimeout c;
     _pendingCallbacks := _pendingCallbacks c; written := written c;
     cancelled := cancelled c; ended := ended c; promises := promises c;
     timers := timers c; forwarding := forwarding c;
     delivered := delivered c; unhandled := u |}.

(** ** Construction *)

(** [interface Options], passed as [Partial<Options>]. *)
Record Options : Type := {
  requestTimeout : option N;
  idempotentId : option string
}.

Definition DEFAULT_REQUEST_TIMEOUT : N := 60 * 1000.

(** [options?.requestTimeout || GrpcClient.DEFAULT_REQUEST_TIMEOUT]: an
    absent option and a timeout of 0 both give the default. *)
Definition requestTimeout_of (options : option Options) : N :=
  match options with
  | Some o =>
      match requestTimeout o with
      | Some t => if decide (t = 0%N) then DEFAULT_REQUEST_TIMEOUT else t
      | None => DEFAULT_REQUEST_TIMEOUT
      end
  | None => DEFAULT_REQUEST_TIMEOUT
  end.

(** [constructor]: the fields as the class initialises them, on a stream
    nothing was written to yet.  [tid] is the random trace id drawn by
    [cryptoRandomString]. *)
Definition new_GrpcClient (tid : string) (options : option Options) : GrpcClient :=
  {| traceId := tid; _status := OK; _seqId := 0;
     _requestTimeout := requestTimeout_of options;
     _pendingCallbacks := ∅; written := []; cancelled := 0; ended := 0;
     promises := []; timers := []; forwarding := [];
     delivered := []; unhandled := [] |}.

(** ** Promises and timers *)

(** Settling a promise: only the first [resolve] or [reject] counts. *)
Definition settle (p : nat) (r : PromiseState) (ps : list PromiseState)
    : list PromiseState :=
  match ps !! p with
  | Some Pending => <[p := r]> ps
  | _ => ps
  end.

(** [clearTimeout(timeoutId)]. *)
Definition clearTimeout (t : nat) (c : GrpcClient) : GrpcClient :=
  set_timers (<[t := None]> (timers c)) c.

(** Modelled from the spec: [PromiseCallback] of [utils/PromiseUtils] is
    not among the sources; the pending entry holds "a cancellable timer
    handle stored alongside the pending entry and cancelled on non-timeout
    resolution", so [resolve] and [reject] clear the timer and then settle
    the promise. *)
Definition pc_resolve (pc : PromiseCallback) (w : SubResponseWrap)
    (c : GrpcClient) : GrpcClient :=
  let c := clearTimeout (pc_timeoutId pc) c in
  set_promises (settle (pc_promise pc) (Resolved w) (promises c)) c.

Definition pc_reject (pc : PromiseCallback) (e : Error)
    (c : GrpcClient) : GrpcClient :=
  let c := clearTimeout (pc_timeoutId pc) c in
  set_promises (settle (pc_promise pc) (Rejected e) (promises c)) c.

(** ** Sending *)

(** [++this._seqId] on a JavaScript number: exact up to 2^53, where adding
    1 rounds back to 2^53.  The counter starts at 0 and nothing else writes
    it, so it never leaves this range. *)
Definition MAX_EXACT : N := 2 ^ 53.

Definition js_incr (n : N) : N :=
  if decide (n < MAX_EXACT)%N then (n + 1)%N else n.

(** The guard of [__sendMessage]. *)
Definition sendable (s : Status) : bool :=
  bool_decide (s = OK ∨ s = SERVER_COMPLETE).

(** [__sendMessage(payload, seq?, ack?)]: throws, or writes one frame. *)
Definition __sendMessage (payload : Payload) (seq ack : option N)
    (c : GrpcClient) : Error + GrpcClient :=
  if sendable (_status c) then
    inr (set_written
           (written c ++ [{| hdr_seq := seq; hdr_ack := ack;
                             msg_payload := payload |}]) c)
  else
    inl (newSubRequestCancelError (traceId c) (_status c) None
           (Some "can not send message while stream status is not illegal")).

(** What the promise returned by [_sendMessage] is: already fulfilled with
    nothing ([Sent]), already rejected ([Threw]), or the promise created
    for a correlated request ([Awaiting], by its index in [promises]). *)
Inductive SendResult : Type :=
  | Sent
  | Threw (e : Error)
  | Awaiting (p : nat).

Definition timeoutError (c : GrpcClient) : Error :=
  IOError None ("[tid:" +:+ traceId c +:+ "] subRequest timeout").

(** [_sendMessage(request, sendOnly, ack?)].  In the correlated branch the
    executor of [new Promise] arms the timer, registers the callback and
    then sends; when the send throws, the constructor rejects the promise
    with what was thrown, and the entry and its timer stay. *)
Definition _sendMessage (request : Payload) (sendOnly : bool) (ack : option N)
    (c : GrpcClient) : GrpcClient * SendResult :=
  if sendOnly then
    match __sendMessage request None ack c with
    | inl e => (c, Threw e)
    | inr c' => (c', Sent)
    end
  else
    let newSeqId := js_incr (_seqId c) in
    let c := set_seqId newSeqId c in
    let p := length (promises c) in
    let c := set_promises (promises c ++ [Pending]) c in
    let timeoutId := length (timers c) in
    let c := set_timers
               (timers c ++ [Some {| t_seq := newSeqId;
                                     t_delay := _requestTimeout c |}]) c in
    let c := set_pending
               (<[newSeqId := {| pc_promise := p; pc_timeoutId := timeoutId |}]>
                  (_pendingCallbacks c)) c in
    match __sendMessage request (Some newSeqId) ack c with
    | inl e => (set_promises (settle p (Rejected e) (promises c)) c, Awaiting p)
    | inr c' => (c', Awaiting p)
    end.

(** [request], [subRequest] and [subReplyAndRequest] as the caller sees
    them. *)
Definition subRequest (request : Payload) (sendOnly : bool) (c : GrpcClient)
    : GrpcClient * SendResult :=
  _sendMessage request sendOnly None c.

Definition request (req : Payload) (c : GrpcClient) : GrpcClient * SendResult :=
  subRequest req false c.

Definition subReplyAndRequest (ack : N) (req : Payload) (c : GrpcClient)
    : GrpcClient * SendResult :=
  _sendMessage req false (Some ack) c.

(** [subReply(ack, replay)]: [_sendMessage(replay, true, ack).then()], so
    a throw of the send ends as a rejection nobody handles. *)
Definition subReply (ack : N) (replay : Payload) (c : GrpcClient) : GrpcClient :=
  match _sendMessage replay true (Some ack) c with
  | (c', Threw e) => set_unhandled (unhandled c' ++ [e]) c'
  | (c', _) => c'
  end.

(** ** The pending table *)

Definition _completePendingRequest (ack : N) (payload : Payload) (seq : N)
    (c : GrpcClient) : GrpcClient :=
  let p := _pendingCallbacks c !! ack in
  let c := set_pending (delete ack (_pendingCallbacks c)) c in
  match p with
  | None => c
  | Some pc => pc_resolve pc {| sr_payload := payload; sr_ack := seq |} c
  end.

Definition _failPendingRequest (ack : N) (error : Error) (c : GrpcClient)
    : GrpcClient :=
  let p := _pendingCallbacks c !! ack in
  let c := set_pending (delete ack (_pendingCallbacks c)) c in
  match p with
  | None => c
  | Some pc => pc_reject pc error c
  end.

(** The loop of [_failAllPendingRequest] over the table's entries. *)
Definition reject_all (e : Error) (entries : list (N * PromiseCallback))
    (c : GrpcClient) : GrpcClient :=
  foldl (fun c kp => pc_reject kp.2 e c) c entries.

Definition _failAllPendingRequest (status : Status) (error : Error)
    (c : GrpcClient) : GrpcClient :=
  let e := newSubRequestCancelError (traceId c) status (Some error) None in
  let c := reject_all e (map_to_list (_pendingCallbacks c)) c in
  set_pending ∅ c.

(** ** Status transitions *)

(** The handler of the stream's ["end"]. *)
Definition on_end (c : GrpcClient) : GrpcClient :=
  if decide (_status c ≠ OK) then c
  else
    let c := _failAllPendingRequest SERVER_COMPLETE (Err "Server complete") c in
    set_status SERVER_COMPLETE c.

(** The handler of the stream's ["error"]. *)
Definition on_error (error : Error) (c : GrpcClient) : GrpcClient :=
  if decide (_status c ≠ OK) then c
  else
    let c := _failAllPendingRequest SERVER_ERROR error c in
    set_status SERVER_ERROR c.

(** [error(e)]. *)
Definition error (e : Error) (c : GrpcClient) : GrpcClient :=
  if decide (_status c ≠ OK) then c
  else
    let c := _failAllPendingRequest CLIENT_ERROR e c in
    let c := set_status CLIENT_ERROR c in
    set_cancelled (S (cancelled c)) c.

(** [complete()]. *)
Definition complete (c : GrpcClient) : GrpcClient :=
  if decide (_status c ≠ OK) then c
  else
    let c := _failAllPendingRequest CLIENT_COMPLETE (Err "Grpc client complete") c in
    let c := set_status CLIENT_COMPLETE c in
    set_ended (S (ended c)) c.

(** ** Reading *)

Definition forwardingError (c : GrpcClient) (e : Error) : Error :=
  IOError (Some e)
    ("[tid:" +:+ traceId c +:+ "] Exception while forwarding message to wechat").

(** What a transport ([WeChatSocketProxy], the long-link proxy,
    [WeChatShortLinkProxy]) answers a forwarded request with: it raises, or
    it returns the response bytes (none is read for a socket request and for
    long-link init data). *)
Inductive TransportOutcome : Type :=
  | Raises (e : Error)
  | Returns (responseData : Bytes).

(** The part of [_onServerMessage] that runs when the frame arrives.  A
    proxied request of a supported case is handed to its transport and
    waits in [forwarding] with the frame's [seq]; an unsupported case throws
    inside the [try] at once. *)
Definition _onServerMessage (serverMessage : ActionMessage) (c : GrpcClient)
    : GrpcClient :=
  let seq := getSeq serverMessage in
  let ack := getAck serverMessage in
  if decide (ack ≠ 0%N) then
    _completePendingRequest ack (getPayload serverMessage) seq c
  else
    match getPayload serverMessage with
    | WECHATREQUEST (REQUEST_OTHER requestCase) =>
        error (forwardingError c
                 (Err ("unsupported wechat request case: " +:+ pretty requestCase))) c
    | WECHATREQUEST weChatRequest =>
        set_forwarding (forwarding c ++ [(weChatRequest, seq)]) c
    | SYSTEMEVENTREQUEST body =>
        let c := subReply seq SYSTEMEVENTRESPONSE c in
        set_delivered (delivered c ++ [OnSystemEvent body]) c
    | _ => set_delivered (delivered c ++ [OnMessage serverMessage]) c
    end.

(** The rest of [_onServerMessage] for a forwarded request, run when its
    transport has answered: [_handleSocketRequest], [_handleLongLinkRequest]
    and [_handleShortLinkRequest] after their [await], and the [catch]. *)
Definition forward_settled (weChatRequest : WeChatRequest) (ack : N)
    (o : TransportOutcome) (c : GrpcClient) : GrpcClient :=
  match o with
  | Raises e => error (forwardingError c e) c
  | Returns responseData =>
      match weChatRequest with
      | SOCKETREQUEST _ _ => c
      | LONGLINKREQUEST _ _ true => c
      | LONGLINKREQUEST _ _ false =>
          subReply ack (WECHATRESPONSE (LONGLINKRESPONSE responseData)) c
      | SHORTLINKREQUEST _ _ _ _ =>
          subReply ack (WECHATRESPONSE (SHORTLINKRESPONSE responseData)) c
      | REQUEST_OTHER _ => c
      end
  end.

(** The callback of [setTimeout] in [_sendMessage]. *)
Definition timer_fires (t : nat) (c : GrpcClient) : GrpcClient :=
  match timers c !! t with
  | Some (Some tm) =>
      let c := set_timers (<[t := None]> (timers c)) c in
      _failPendingRequest (t_seq tm) (timeoutError c) c
  | _ => c
  end.

(** ** The instance as a machine *)

(** Everything that can happen to an instance: a call of its API, a signal
    of its stream, a timer, a transport answering. *)
Inductive Event : Type :=
  | CallSend (request : Payload) (sendOnly : bool) (ack : option N)
  | CallError (e : Error)
  | CallComplete
  | StreamData (serverMessage : ActionMessage)
  | StreamEnd
  | StreamError (e : Error)
  | TimerFires (t : nat)
  | ForwardSettles (i : nat) (o : TransportOutcome).

Definition step (c : GrpcClient) (ev : Event) : GrpcClient :=
  match ev with
  | CallSend request sendOnly ack => (_sendMessage request sendOnly ack c).1
  | CallError e => error e c
  | CallComplete => complete c
  | StreamData serverMessage => _onServerMessage serverMessage c
  | StreamEnd => on_end c
  | StreamError e => on_error e c
  | TimerFires t => timer_fires t c
  | ForwardSettles i o =>
      match forwarding c !! i with
      | Some (weChatRequest, ack) =>
          forward_settled weChatRequest ack o
            (set_forwarding (delete i (forwarding c)) c)
      | None => c
      end
  end.

Definition run (c : GrpcClient) (evs : list Event) : GrpcClient :=
  foldl step c evs.

(** The four paths that move the status off [OK]. *)
Inductive Transition : Type :=
  | ByStreamEnd
  | ByStreamError (e : Error)
  | ByError (e : Error)
  | ByComplete.

Definition transition (t : Transition) (c : GrpcClient) : GrpcClient :=
  match t with
  | ByStreamEnd => on_end c
  | ByStreamError e => on_error e c
  | ByError e => error e c
  | ByComplete => complete c
  end.

(** A caller issuing correlated requests one after the other, each with
    its payload and, for [subReplyAndRequest], the [ack] it answers. *)
Definition requests (reqs : list (Payload * option N)) (c : GrpcClient)
    : GrpcClient :=
  foldl (fun c r => (_sendMessage r.1 false r.2 c).1) c reqs.

(** The sequence numbers in use never exceed the counter: the counter
    stays in the exact range, every key of the table and every [seq] of a
    written frame lies between 1 and the counter. *)
Definition seqs_in_range (c : GrpcClient) : Prop :=
  (_seqId c ≤ MAX_EXACT)%N
  ∧ (∀ k pc, _pendingCallbacks c !! k = Some pc → (1 ≤ k ≤ _seqId c)%N)
  ∧ (∀ m s, m ∈ written c → hdr_seq m = Some s → (1 ≤ s ≤ _seqId c)%N).

(** [c'] allocated no sequence number on top of [c]: the same counter, no
    new key, no new frame with a [seq]. *)
Definition allocates_nothing (c c' : GrpcClient) : Prop :=
  _seqId c' = _seqId c
  ∧ (∀ k pc, _pendingCallbacks c' !! k = Some pc →
             _pendingCallbacks c !! k = Some pc)
  ∧ (∀ m, m ∈ written c' → m ∈ written c ∨ hdr_seq m = None).

(** What [pc_reject] leaves alone. *)
Definition same_but_promises_timers (c c' : GrpcClient) : Prop :=
  traceId c' = traceId c ∧ _status c' = _status c ∧ _seqId c' = _seqId c ∧
  _requestTimeout c' = _requestTimeout c ∧
  _pendingCallbacks c' = _pendingCallbacks c ∧ written c' = written c ∧
  cancelled c' = cancelled c ∧ ended c' = ended c ∧
  forwarding c' = forwarding c ∧ delivered c' = delivered c ∧
  unhandled c' = unhandled c ∧ length (promises c') = length (promises c).

(** Every promise settled in [c] is settled the same way in [c']. *)
Definition keeps_settled (c c' : GrpcClient) : Prop :=
  ∀ p s, promises c !! p = Some s → s ≠ Pending → promises c' !! p = Some s.

(** ** Sample instances *)

Definition sample_new : GrpcClient := new_GrpcClient "abcd1234" None.

Definition sample_payload : Payload := PAYLOAD_OTHER 1 [].

(** One correlated request in flight. *)
Definition sample_waiting : GrpcClient := (request sample_payload sample_new).1.

(** The same instance after the server closed the stream. *)
Definition sample_server_complete : GrpcClient := on_end sample_waiting.

(** A proxied request of a case the client does not know, asking for a
    reply to 7. *)
Definition sample_unsupported : ActionMessage :=
  {| hdr_seq := Some 7%N; hdr_ack := None;
     msg_payload := WECHATREQUEST (REQUEST_OTHER 0) |}.

(** A short-link request, and the reply to request 1. *)
Definition sample_shortlink : ActionMessage :=
  {| hdr_seq := Some 8%N; hdr_ack := None;
     msg_payload := WECHATREQUEST (SHORTLINKREQUEST "szshort.weixin.qq.com" 80 "/cgi-bin/micromsg-bin/newsync" []) |}.

Definition sample_reply : ActionMessage :=
  {| hdr_seq := None; hdr_ack := Some 1%N;
     msg_payload := PAYLOAD_OTHER 2 [] |}.

(** ** Bookkeeping of promises and timers *)

(** While the counter is exact, the i-th correlated request is given the
    sequence number i, the promise i - 1 and the timer i - 1.  [in_step]
    says so of an instance: as many promises and timers as numbers handed
    out; an entry under [k] holds the promise and the timer [k - 1]; an
    armed timer [t] captured [t + 1]; and a promise that is not settled
    still has its entry in the table and its timer armed. *)
Definition in_step (c : GrpcClient) : Prop :=
  length (promises c) = N.to_nat (_seqId c)
  ∧ length (timers c) = N.to_nat (_seqId c)
  ∧ (∀ k pc, _pendingCallbacks c !! k = Some pc →
       k ≠ 0%N ∧ pc = {| pc_promise := N.to_nat k - 1;
                         pc_timeoutId := N.to_nat k - 1 |})
  ∧ (∀ t tm, timers c !! t = Some (Some tm) → t_seq tm = N.of_nat (S t))
  ∧ (∀ p, promises c !! p = Some Pending →
       _pendingCallbacks c !! N.of_nat (S p)
       = Some {| pc_promise := p; pc_timeoutId := p |}
       ∧ ∃ tm, timers c !! p = Some (Some tm)).

(** [c'] has the promises and timers of [c], some of them settled or
    cleared since. *)
Definition settles_only (c c' : GrpcClient) : Prop :=
  length (promises c') = length (promises c)
  ∧ length (timers c') = length (timers c)
  ∧ (∀ t tm, timers c' !! t = Some (Some tm) → timers c !! t = Some (Some tm))
  ∧ (∀ p, promises c' !! p = Some Pending → promises c !! p = Some Pending).

(** The events that can settle the promise [p]: the reply to its sequence
    number, its timer, and whatever tears the connection down (a stream
    signal, [error(e)], [complete()], a forwarding that fails). *)
Definition may_settle (p : nat) (ev : Event) : bool :=
  match ev with
  | CallSend _ _ _ => false
  | CallError _ | CallComplete | StreamEnd | StreamError _ => true
  | StreamData m =>
      if decide (getAck m ≠ 0%N) then bool_decide (getAck m = N.of_nat (S p))
      else match getPayload m with
           | WECHATREQUEST (REQUEST_OTHER _) => true
           | _ => false
           end
  | TimerFires t => bool_decide (t = p)
  | ForwardSettles _ (Raises _) => true
  | ForwardSettles _ (Returns _) => false
  end.

(** The status a transition sets and the error it passes on as the cause
    of the rejections. *)
Definition reason_of (t : Transition) : Status :=
  match t with
  | ByStreamEnd => SERVER_COMPLETE
  | ByStreamError _ => SERVER_ERROR
  | ByError _ => CLIENT_ERROR
  | ByComplete => CLIENT_COMPLETE
  end.

Definition cause_of (t : Transition) : Error :=
  match t with
  | ByStreamEnd => Err "Server complete"
  | ByStreamError e => e
  | ByError e => e
  | ByComplete => Err "Grpc client complete"
  end.

(** The sequence numbers of the frames written so far, in the order of
    writing. *)
Definition written_seqs (c : GrpcClient) : list N :=
  omap hdr_seq (written c).

End GrpcClient.

(* ===================================================================== *)
(** * utils/FileUtils.ts *)
(* ===================================================================== *)

Module FileUtils.

(** ** Collaborators *)

(** What [encryptUploadData] and the upload builders import from
    [utils/crypto] and [utils/MediaUtils], none of which is among the
    sources: the key generator with the random source it draws from, the
    cipher (called with a key and the data, no initialisation vector), the
    two digests, and the media probes, which fail on bytes they cannot
    read. *)
Class Crypto : Type := {
  Entropy : Type;
  AesGenKey : Entropy → Bytes * Entropy;
  AesEcbEncrypt : Bytes → Bytes → Bytes;
  AesEcbDecrypt : Bytes → Bytes → Bytes;
  adler32 : Bytes → N → N;
  md5 : Bytes → string
}.

Class Media : Type := {
  getImageSize : Bytes → option (N * N);
  createImageThumb : Bytes → N → option Bytes
}.

(** What [downloadFile] imports from [utils/FileUnpacker]: a decoded frame
    with its fields by name ([response.body[name]]),
    [FileResponse.unpackInteger], and the decoder's buffering with [reset]
    and [update]. *)
Class Unpacker : Type := {
  FileResponse : Type;
  body : FileResponse → string → Bytes;
  unpackInteger : Bytes → Z;
  Buffering : Type;
  empty_buffering : Buffering;
  unpacker_reset : Buffering → Buffering;
  unpacker_update : Buffering → Bytes → Buffering * list FileResponse
}.

(** ** Upload *)

Record FileUploadDataMeta : Type := {
  dm_size : N;
  dm_checksum : N;
  dm_md5 : string
}.

Record FileUploadEncryptedDataMeta : Type := {
  em_aeskey : Bytes;
  em_size : N;
  em_checksum : N;
  em_md5 : string
}.

Record EncryptedUpload : Type := {
  plainDataMeta : FileUploadDataMeta;
  encryptedDataMeta : FileUploadEncryptedDataMeta;
  encryptedData : Bytes
}.

(** [encryptUploadData(plainData, aesKey?)]; [aesKey || AesGenKey()] draws
    a key only when none is passed (a buffer is truthy, also an empty
    one). *)
Definition encryptUploadData `{Crypto} (plainData : Bytes)
    (aesKey : option Bytes) (g : Entropy) : EncryptedUpload * Entropy :=
  let '(aesKey, g) :=
    match aesKey with
    | Some k => (k, g)
    | None => AesGenKey g
    end in
  let encryptedData := AesEcbEncrypt aesKey plainData in
  ({| plainDataMeta :=
        {| dm_size := N.of_nat (length plainData);
           dm_checksum := adler32 plainData 0;
           dm_md5 := md5 plainData |};
      encryptedDataMeta :=
        {| em_aeskey := aesKey;
           em_size := N.of_nat (length encryptedData);
           em_checksum := adler32 encryptedData 0;
           em_md5 := md5 encryptedData |};
      encryptedData := encryptedData |}, g).

Record FileUploadImageMeta : Type := {
  im_plaindatameta : FileUploadDataMeta;
  im_encrypteddatameta : FileUploadEncryptedDataMeta;
  im_width : N;
  im_height : N
}.

Record UploadImageMeta : Type := {
  imageMeta : FileUploadImageMeta;
  encryptedImageData : Bytes
}.

(** [generateUploadImageMeta(imageData, aesKey?)]: the data is encrypted
    first, then probed for its size. *)
Definition generateUploadImageMeta `{Crypto} `{Media} (imageData : Bytes)
    (aesKey : option Bytes) (g : Entropy) : option (UploadImageMeta * Entropy) :=
  let '(imageEncryptedRet, g) := encryptUploadData imageData aesKey g in
  imageSize ← getImageSize imageData;
  Some ({| imageMeta :=
             {| im_plaindatameta := plainDataMeta imageEncryptedRet;
                im_encrypteddatameta := encryptedDataMeta imageEncryptedRet;
                im_width := imageSize.1;
                im_height := imageSize.2 |};
           encryptedImageData := encryptedData imageEncryptedRet |}, g).

Record FileUploadImageParams : Type := {
  imagemeta : FileUploadImageMeta;
  thumbimagemeta : option FileUploadImageMeta
}.

Record PreparedImageUpload : Type := {
  params : FileUploadImageParams;
  aesKey : Bytes;
  dataBag : gmap string Bytes
}.

(** [prepareImageUpload(imageData, useThumb)]. *)
Definition prepareImageUpload `{Crypto} `{Media} (imageData : Bytes)
    (useThumb : bool) (g : Entropy) : option (PreparedImageUpload * Entropy) :=
  '(uploadImageMeta, g) ← generateUploadImageMeta imageData None g;
  let aesKey := em_aeskey (im_encrypteddatameta (imageMeta uploadImageMeta)) in
  let params := {| imagemeta := imageMeta uploadImageMeta;
                   thumbimagemeta := None |} in
  let dataBag : gmap string Bytes :=
    {[ em_md5 (im_encrypteddatameta (imageMeta uploadImageMeta))
       := encryptedImageData uploadImageMeta ]} in
  if useThumb then
    thumbImageData ← createImageThumb imageData 120;
    '(uploadThumbImageMeta, g) ←
      generateUploadImageMeta thumbImageData (Some aesKey) g;
    let params := {| imagemeta := imagemeta params;
                     thumbimagemeta := Some (imageMeta uploadThumbImageMeta) |} in
    let dataBag :=
      <[ em_md5 (im_encrypteddatameta (imageMeta uploadThumbImageMeta))
         := encryptedImageData uploadThumbImageMeta ]> dataBag in
    Some ({| params := params; aesKey := aesKey; dataBag := dataBag |}, g)
  else
    Some ({| params := params; aesKey := aesKey; dataBag := dataBag |}, g).

(** ** Download *)

Record FileDownloadRequest : Type := {
  dl_host : string;
  dl_port : N;
  dl_payload : Bytes;
  dl_unpackaeskey : Bytes
}.

(** [new FileUnpacker(aesKey)]: the key it was built with and its
    buffering. *)
Record FileUnpacker `{Unpacker} : Type := {
  fu_aeskey : Bytes;
  fu_buffering : Buffering
}.

(** Modelled from the spec: [FileUnpacker.getDecryptedFileData] is not
    among the sources; it is to "extract the named encrypted-file-data
    field and decrypt it using the symmetric key embedded in the original
    request". *)
Definition getDecryptedFileData `{Crypto} `{Unpacker} (u : FileUnpacker)
    (response : FileResponse) : Bytes :=
  AesEcbDecrypt (fu_aeskey u) (body response "filedata").

(** What the peer of a socket does: the connection fails, or it delivers
    chunks and closes. *)
Inductive Wire : Type :=
  | ConnectFails (reason : string)
  | Receives (chunks : list Bytes).

(** Modelled from the spec: [SocketClient] of [link/SocketClient] is not
    among the sources; it offers "[send(bytes)] with an
    [onReceive(bytes) -> consumed?] callback contract and an [onConnect()]
    hook": [onConnect] runs once the connection stands, [onReceive] runs on
    each inbound chunk in order, and [send] returns as soon as [onReceive]
    answers true or the peer closes.  [S] is the state the two callbacks
    close over. *)
Fixpoint SocketClient_receive {S : Type} (onReceive : S → Bytes → S * bool)
    (s : S) (chunks : list Bytes) : S :=
  match chunks with
  | [] => s
  | data :: chunks =>
      let '(s, consumed) := onReceive s data in
      if consumed then s else SocketClient_receive onReceive s chunks
  end.

Definition SocketClient_send {S : Type} (onConnect : S → S)
    (onReceive : S → Bytes → S * bool) (wire : Wire) (s : S) : string + S :=
  match wire with
  | ConnectFails reason => inl reason
  | Receives chunks => inr (SocketClient_receive onReceive (onConnect s) chunks)
  end.

Inductive DownloadError : Type :=
  | SocketFailed (reason : string)
  | NullResponse
  | RetCode (retCode : Z).

(** The two callbacks of [downloadFile], over [fileUnpacker] and
    [response]. *)
Definition onConnect `{Unpacker} (s : FileUnpacker * option FileResponse)
    : FileUnpacker * option FileResponse :=
  ({| fu_aeskey := fu_aeskey s.1;
      fu_buffering := unpacker_reset (fu_buffering s.1) |}, s.2).

Definition onReceive `{Unpacker} (s : FileUnpacker * option FileResponse)
    (data : Bytes) : (FileUnpacker * option FileResponse) * bool :=
  let '(buffering, responseList) := unpacker_update (fu_buffering s.1) data in
  let fileUnpacker := {| fu_aeskey := fu_aeskey s.1; fu_buffering := buffering |} in
  match responseList with
  | response :: _ => ((fileUnpacker, Some response), true)
  | [] => ((fileUnpacker, s.2), false)
  end.

(** [downloadFile(fileDownloadRequest, traceId)], on a given peer. *)
Definition downloadFile `{Crypto} `{Unpacker}
    (fileDownloadRequest : FileDownloadRequest) (wire : Wire)
    : DownloadError + Bytes :=
  let fileUnpacker := {| fu_aeskey := dl_unpackaeskey fileDownloadRequest;
                         fu_buffering := empty_buffering |} in
  match SocketClient_send onConnect onReceive wire (fileUnpacker, None) with
  | inl reason => inl (SocketFailed reason)
  | inr (fileUnpacker, None) => inl NullResponse
  | inr (fileUnpacker, Some response) =>
      let retCode := unpackInteger (body response "retcode") in
      if decide (retCode ≠ 0%Z) then inl (RetCode retCode)
      else inr (getDecryptedFileData fileUnpacker response)
  end.

(** The buffering after chunks none of which completes a frame. *)
Fixpoint silent `{Unpacker} (b : Buffering) (chunks : list Bytes)
    : option Buffering :=
  match chunks with
  | [] => Some b
  | data :: chunks =>
      match unpacker_update b data with
      | (b, []) => silent b chunks
      | _ => None
      end
  end.

(** ** Sample collaborators *)

(** Stand-ins to run the functions on.  Keys are handed out from a list;
    the cipher puts the key in front of the data and decryption drops it;
    the checksum adds the length to the seed; the hash spells the bytes
    out. *)
Definition sample_crypto : Crypto :=
  {| Entropy := list Bytes;
     AesGenKey := fun g => match g with k :: g => (k, g) | [] => ([], []) end;
     AesEcbEncrypt := fun key data => key ++ data;
     AesEcbDecrypt := fun key data => drop (length key) data;
     adler32 := fun data seed => (seed + N.of_nat (length data))%N;
     md5 := String.string_of_list_byte |}.

(** A thumbnailer that keeps the first two bytes, and one that hands an
    image back as it is (one already within the bound). *)
Definition sample_media : Media :=
  {| getImageSize := fun _ => Some (640%N, 480%N);
     createImageThumb := fun data _ => Some (take 2 data) |}.

Definition sample_media_small : Media :=
  {| getImageSize := fun _ => Some (100%N, 80%N);
     createImageThumb := fun data _ => Some data |}.

Definition sample_key : Bytes := ["k"%byte; "e"%byte; "y"%byte].

Definition sample_image : Bytes :=
  ["i"%byte; "m"%byte; "a"%byte; "g"%byte; "e"%byte].

(** A decoder whose frames are six bytes long: the first is the result
    code, the other five the file data. *)
Definition sample_unpacker : Unpacker :=
  {| FileResponse := Bytes;
     body := fun response name =>
       if decide (name = "retcode") then take 1 response
       else if decide (name = "filedata") then drop 1 response
       else [];
     unpackInteger := fun bytes =>
       match bytes with
       | b :: _ => Z.of_N (Byte.to_N b)
       | [] => 0%Z
       end;
     Buffering := Bytes;
     empty_buffering := [];
     unpacker_reset := fun _ => [];
     unpacker_update := fun b data =>
       let b := b ++ data in
       if decide (6 ≤ length b)%nat then (drop 6 b, [take 6 b]) else (b, []) |}.

Definition sample_download : FileDownloadRequest :=
  {| dl_host := "127.0.0.1"; dl_port := 8080; dl_payload := [];
     dl_unpackaeskey := sample_key |}.

(** ** Video and file upload *)

(** The video probes of [utils/MediaUtils], not among the sources either:
    the duration in seconds, in whatever number the probe returns, and the
    frame taken as thumbnail. *)
Class VideoMedia : Type := {
  Duration : Type;
  getVideoDurationSeconds : Bytes → option Duration;
  createVideoThumb : Bytes → N → option Bytes
}.

Record FileUploadVideoMeta `{VideoMedia} : Type := {
  vm_plaindatameta : FileUploadDataMeta;
  vm_encrypteddatameta : FileUploadEncryptedDataMeta;
  vm_duration : Duration
}.

Record UploadVideoMeta `{VideoMedia} : Type := {
  videoMeta : FileUploadVideoMeta;
  encryptedVideoData : Bytes
}.

(** [generateUploadVideoMeta(videoData)]: always under a key of its own. *)
Definition generateUploadVideoMeta `{Crypto} `{VideoMedia} (videoData : Bytes)
    (g : Entropy) : option (UploadVideoMeta * Entropy) :=
  let '(videoEncryptedRet, g) := encryptUploadData videoData None g in
  videoDuration ← getVideoDurationSeconds videoData;
  Some ({| videoMeta :=
             {| vm_plaindatameta := plainDataMeta videoEncryptedRet;
                vm_encrypteddatameta := encryptedDataMeta videoEncryptedRet;
                vm_duration := videoDuration |};
           encryptedVideoData := encryptedData videoEncryptedRet |}, g).

(** [generateUploadFileMeta(fileData)]. *)
Definition generateUploadFileMeta `{Crypto} (fileData : Bytes) (g : Entropy)
    : EncryptedUpload * Entropy :=
  let '(fileEncryptedRet, g) := encryptUploadData fileData None g in
  ({| plainDataMeta := plainDataMeta fileEncryptedRet;
      encryptedDataMeta := encryptedDataMeta fileEncryptedRet;
      encryptedData := encryptedData fileEncryptedRet |}, g).

Record FileUploadVideoParams `{VideoMedia} : Type := {
  vp_videometa : FileUploadVideoMeta;
  vp_thumbimagemeta : FileUploadImageMeta
}.

Record PreparedVideoUpload `{VideoMedia} : Type := {
  v_params : FileUploadVideoParams;
  v_aesKey : Bytes;
  v_dataBag : gmap string Bytes
}.

(** [prepareVideoUpload(videoData)]; in the object literal of [dataBag]
    the thumbnail's property comes second, so it is the one kept when the
    two keys are equal. *)
Definition prepareVideoUpload `{Crypto} `{Media} `{VideoMedia}
    (videoData : Bytes) (g : Entropy) : option (PreparedVideoUpload * Entropy) :=
  '(uploadVideoMeta, g) ← generateUploadVideoMeta videoData g;
  let aesKey := em_aeskey (vm_encrypteddatameta (videoMeta uploadVideoMeta)) in
  thumbImageData ← createVideoThumb videoData 360;
  '(uploadThumbImageData, g) ←
    generateUploadImageMeta thumbImageData (Some aesKey) g;
  Some ({| v_params :=
             {| vp_videometa := videoMeta uploadVideoMeta;
                vp_thumbimagemeta := imageMeta uploadThumbImageData |};
           v_aesKey := aesKey;
           v_dataBag :=
             <[ em_md5 (im_encrypteddatameta (imageMeta uploadThumbImageData))
                := encryptedImageData uploadThumbImageData ]>
               {[ em_md5 (vm_encrypteddatameta (videoMeta uploadVideoMeta))
                  := encryptedVideoData uploadVideoMeta ]} |}, g).

Record FileUploadFileParams : Type := {
  fp_plaindatameta : FileUploadDataMeta;
  fp_encrypteddatameta : FileUploadEncryptedDataMeta
}.

Record PreparedFileUpload : Type := {
  f_params : FileUploadFileParams;
  f_aesKey : Bytes;
  f_dataBag : gmap string Bytes
}.

(** [prepareFileUpload(fileData)]. *)
Definition prepareFileUpload `{Crypto} (fileData : Bytes) (g : Entropy)
    : PreparedFileUpload * Entropy :=
  let '(uploadFileMeta, g) := generateUploadFileMeta fileData g in
  let aesKey := em_aeskey (encryptedDataMeta uploadFileMeta) in
  ({| f_params :=
        {| fp_plaindatameta := plainDataMeta uploadFileMeta;
           fp_encrypteddatameta := encryptedDataMeta uploadFileMeta |};
      f_aesKey := aesKey;
      f_dataBag :=
        {[ em_md5 (encryptedDataMeta uploadFileMeta)
           := encryptedData uploadFileMeta ]} |}, g).

(** A sample video probe: three seconds, and the first byte as the
    frame. *)
Definition sample_video_media : VideoMedia :=
  {| Duration := N;
     getVideoDurationSeconds := fun _ => Some 3%N;
     createVideoThumb := fun data _ => Some (take 1 data) |}.

End FileUtils.

(* ===================================================================== *)
(** * The text handed to the XML reader by appMessageParser *)
(* ===================================================================== *)

Module AppMessageParser.

(** A JavaScript string is the sequence of its UTF-16 code units. *)
Definition JsString : Type := list N.

(** The code units [String.prototype.trim] strips: the WhiteSpace and the
    LineTerminator of ECMAScript (tab, line feed, vertical tab, form feed,
    carriage return, space, no-break space, U+1680, U+2000 to U+200A,
    U+2028, U+2029, U+202F, U+205F, U+3000 and U+FEFF). *)
Definition isWhiteSpace (u : N) : bool :=
  bool_decide (u ∈ [9; 10; 11; 12; 13; 32; 160; 5760; 8232; 8233; 8239;
                    8287; 12288; 65279]%N)
  || ((8192 <=? u)%N && (u <=? 8202)%N).

Fixpoint trimStart (s : JsString) : JsString :=
  match s with
  | u :: s' => if isWhiteSpace u then trimStart s' else s
  | [] => []
  end.

(** [s.trim()]. *)
Definition trim (s : JsString) : JsString :=
  reverse (trimStart (reverse (trimStart s))).

(** The newline, and the text ["<msg>"]. *)
Definition LF : N := 10.

Definition MSG : JsString := [60; 109; 115; 103; 62]%N.

(** Whether [s] starts with [t]. *)
Fixpoint startsWith (s t : JsString) {struct t} : bool :=
  match t, s with
  | [], _ => true
  | a :: t', b :: s' => bool_decide (a = b) && startsWith s' t'
  | _ :: _, [] => false
  end.

(** [/^<msg>.*/.test(content)]: the pattern is anchored at the start and
    [.*] matches the empty text. *)
Definition test_msg (content : JsString) : bool := startsWith content MSG.

(** The longest run at the start of [s] of code units other than the
    newline, which is what a greedy [[^\n]+] takes. *)
Fixpoint line (s : JsString) : JsString :=
  match s with
  | u :: s' => if decide (u = LF) then [] else u :: line s'
  | [] => []
  end.

(** [content.replace(/^[^\n]+\n/, "")]: the pattern matches only at the
    start, where it needs a run of at least one code unit followed by a
    newline; the match is removed, and a text it does not match is left as
    it is. *)
Definition replace_first_line (content : JsString) : JsString :=
  let run := line content in
  match run, drop (length run) content with
  | _ :: _, u :: rest => if decide (u = LF) then rest else content
  | _, _ => content
  end.

(** The first lines of [appMessageParser]: the text that goes to
    [xmlToJson]. *)
Definition tryXmlText (content : JsString) : JsString :=
  let content := trim content in
  if negb (test_msg content) then replace_first_line content else content.

(** ["wxid_1:\n<msg>hi</msg>\n"], a message as a chat room delivers it. *)
Definition sample_sender : JsString := [119; 120; 105; 100; 95; 49; 58]%N.

Definition sample_xml : JsString :=
  MSG ++ [104; 105; 60; 47; 109; 115; 103; 62]%N.

Definition sample_content : JsString :=
  sample_sender ++ LF :: sample_xml ++ [LF].

End AppMessageParser.

(* ===================================================================== *)
(** * Properties of GrpcClient.ts *)
(* ===================================================================== *)

Module GrpcClientFacts.
Import GrpcClient.

(** ** Promises, timers and the loop over the table *)

Lemma set_pending_same c : set_pending (_pendingCallbacks c) c = c.
Proof. by destruct c. Qed.

Lemma settle_length p r ps : length (settle p r ps) = length ps.
Proof.
  unfold settle. destruct (ps !! p) as [[]|]; try done.
  by rewrite length_insert.
Qed.

Lemma settle_other p q r ps : p ≠ q → settle p r ps !! q = ps !! q.
Proof.
  intros Hpq. unfold settle. destruct (ps !! p) as [[]|]; try done.
  by rewrite list_lookup_insert_ne.
Qed.

Lemma settle_pending p r ps : ps !! p = Some Pending → settle p r ps !! p = Some r.
Proof.
  intros Hp. unfold settle. rewrite Hp.
  apply list_lookup_insert_eq. by eapply lookup_lt_Some.
Qed.

Lemma settle_settled p r ps : ps !! p ≠ Some Pending → settle p r ps = ps.
Proof.
  intros Hp. unfold settle. by destruct (ps !! p) as [[]|].
Qed.


Lemma reject_all_cons e k pc entries c :
  reject_all e ((k, pc) :: entries) c = reject_all e entries (pc_reject pc e c).
Proof. done. Qed.

Lemma reject_all_frame e entries c :
  same_but_promises_timers c (reject_all e entries c).
Proof.
  revert c. induction entries as [|[k pc] entries IH]; intros c.
  { by repeat split. }
  rewrite reject_all_cons.
  destruct (IH (pc_reject pc e c)) as (?&?&?&?&?&?&?&?&?&?&?&Hlen).
  repeat split; try done.
  rewrite Hlen. cbn. apply settle_length.
Qed.

Lemma reject_all_rejects e entries c k pc :
  (k, pc) ∈ entries →
  promises c !! pc_promise pc = Some Pending →
  promises (reject_all e entries c) !! pc_promise pc = Some (Rejected e).
Proof.
  assert (Hkeep : ∀ entries c p,
    promises c !! p = Some (Rejected e) →
    promises (reject_all e entries c) !! p = Some (Rejected e)).
  { clear. induction entries as [|[k' pc'] entries IH]; intros c p Hp; [done|].
    rewrite reject_all_cons. apply IH. cbn.
    destruct (decide (pc_promise pc' = p)) as [<-|Hne].
    - rewrite settle_settled; [done|congruence].
    - by rewrite settle_other. }
  revert c. induction entries as [|[k' pc'] entries IH]; intros c Hin Hp.
  { by apply elem_of_nil in Hin. }
  rewrite reject_all_cons.
  apply elem_of_cons in Hin as [[= <- <-]|Hin].
  - apply Hkeep. cbn. by apply settle_pending.
  - destruct (decide (pc_promise pc' = pc_promise pc)) as [Heq|Hne].
    + apply Hkeep. cbn. rewrite Heq. by apply settle_pending.
    + apply IH; [done|]. cbn. by rewrite settle_other.
Qed.


Lemma reject_all_unreferenced e entries c q :
  (∀ k pc, (k, pc) ∈ entries → pc_promise pc ≠ q) →
  promises (reject_all e entries c) !! q = promises c !! q.
Proof.
  revert c. induction entries as [|[k pc] entries IH]; intros c Hq; [done|].
  rewrite reject_all_cons, IH.
  - cbn. apply settle_other. eapply Hq. left.
  - intros k' pc' Hin. eapply Hq. by right.
Qed.

(** ** The four transitions *)

Lemma _failAllPendingRequest_frame status e c :
  let c' := _failAllPendingRequest status e c in
  traceId c' = traceId c ∧ _status c' = _status c ∧ _seqId c' = _seqId c ∧
  _requestTimeout c' = _requestTimeout c ∧ _pendingCallbacks c' = ∅ ∧
  written c' = written c ∧ cancelled c' = cancelled c ∧ ended c' = ended c ∧
  forwarding c' = forwarding c ∧ delivered c' = delivered c ∧
  unhandled c' = unhandled c ∧ length (promises c') = length (promises c).
Proof.
  unfold _failAllPendingRequest.
  destruct (reject_all_frame
              (newSubRequestCancelError (traceId c) status (Some e) None)
              (map_to_list (_pendingCallbacks c)) c)
    as (?&?&?&?&?&?&?&?&?&?&?&?).
  by repeat split.
Qed.

Lemma _failAllPendingRequest_rejects status e c k pc :
  _pendingCallbacks c !! k = Some pc →
  promises c !! pc_promise pc = Some Pending →
  promises (_failAllPendingRequest status e c) !! pc_promise pc
  = Some (Rejected (newSubRequestCancelError (traceId c) status (Some e) None)).
Proof.
  intros Hk Hp. unfold _failAllPendingRequest. cbn.
  eapply reject_all_rejects; [|done]. by apply elem_of_map_to_list.
Qed.


Lemma transition_off_OK t c : _status (transition t c) ≠ OK.
Proof.
  destruct t; cbn; unfold on_end, on_error, error, complete;
    case_decide; done.
Qed.

Lemma transition_terminal t c : _status c ≠ OK → transition t c = c.
Proof.
  intros H. destruct t; cbn; unfold on_end, on_error, error, complete;
    by case_decide.
Qed.


Lemma _sendMessage_status request sendOnly ack c :
  _status (_sendMessage request sendOnly ack c).1 = _status c.
Proof.
  unfold _sendMessage, __sendMessage.
  destruct sendOnly; cbn; by destruct (sendable (_status c)).
Qed.

Lemma subReply_status ack replay c : _status (subReply ack replay c) = _status c.
Proof.
  unfold subReply, _sendMessage, __sendMessage. cbn.
  by destruct (sendable (_status c)).
Qed.

Lemma _completePendingRequest_status ack payload seq c :
  _status (_completePendingRequest ack payload seq c) = _status c.
Proof.
  unfold _completePendingRequest. by destruct (_pendingCallbacks c !! ack).
Qed.

Lemma _failPendingRequest_status ack e c :
  _status (_failPendingRequest ack e c) = _status c.
Proof.
  unfold _failPendingRequest. by destruct (_pendingCallbacks c !! ack).
Qed.

Lemma error_terminal e c : _status c ≠ OK → error e c = c.
Proof. apply (transition_terminal (ByError e)). Qed.

Lemma complete_terminal c : _status c ≠ OK → complete c = c.
Proof. apply (transition_terminal ByComplete). Qed.

Lemma on_end_terminal c : _status c ≠ OK → on_end c = c.
Proof. apply (transition_terminal ByStreamEnd). Qed.

Lemma on_error_terminal e c : _status c ≠ OK → on_error e c = c.
Proof. apply (transition_terminal (ByStreamError e)). Qed.

Lemma step_status_terminal ev c : _status c ≠ OK → _status (step c ev) = _status c.
Proof.
  intros H. destruct ev as [request sendOnly ack|e| |m| |e|t|i o]; cbn.
  - apply _sendMessage_status.
  - by rewrite error_terminal.
  - by rewrite complete_terminal.
  - unfold _onServerMessage. case_decide.
    + apply _completePendingRequest_status.
    + destruct (getPayload m) as [[]| | | |]; cbn;
        rewrite ?error_terminal, ?subReply_status; done.
  - by rewrite on_end_terminal.
  - by rewrite on_error_terminal.
  - unfold timer_fires. destruct (timers c !! t) as [[tm|]|]; try done.
    by rewrite _failPendingRequest_status.
  - destruct (forwarding c !! i) as [[r ack]|]; [|done].
    unfold forward_settled. destruct o as [e|data].
    + by rewrite error_terminal.
    + destruct r as [| ? ? []| |]; cbn; rewrite ?subReply_status; done.
Qed.

Lemma run_status_terminal evs c : _status c ≠ OK → _status (run c evs) = _status c.
Proof.
  revert c. induction evs as [|ev evs IH]; intros c H; [done|].
  cbn. rewrite IH; rewrite step_status_terminal; done.
Qed.

(** ** Connection status *)

(** C3: the status starts at [OK]; each of the four transition paths
    (stream end, stream error, [error(e)], [complete()]) leaves a status
    other than [OK]; on an instance whose status is not [OK] every one of
    them returns the instance unchanged (no promise is failed, the stream
    is neither cancelled nor ended again), so a second transition after any
    first one changes nothing; and no later event of any kind changes the
    status again. *)
Theorem status_is_monotonic (tid : string) (options : option Options)
    (c : GrpcClient) (t t' : Transition) (evs : list Event)
    (Hoff : _status c ≠ OK) :
  _status (new_GrpcClient tid options) = OK
  ∧ transition t c = c
  ∧ _status (run c evs) = _status c
  ∧ (∀ c0, _status (transition t c0) ≠ OK
           ∧ transition t' (transition t c0) = transition t c0).
Proof.
  split; [done|]. split; [by apply transition_terminal|].
  split; [by apply run_status_terminal|].
  intros c0. split; [apply transition_off_OK|].
  apply transition_terminal, transition_off_OK.
Qed.

Lemma status_is_monotonic_witness :
  _status (new_GrpcClient "abcd1234" None) = OK
  ∧ transition (ByError (Err "late")) sample_server_complete
    = sample_server_complete
  ∧ _status (run sample_server_complete
               [CallComplete; StreamError (Err "x"); StreamData sample_unsupported])
    = _status sample_server_complete
  ∧ (∀ c0, _status (transition (ByError (Err "late")) c0) ≠ OK
           ∧ transition ByComplete (transition (ByError (Err "late")) c0)
             = transition (ByError (Err "late")) c0).
Proof.
  apply (status_is_monotonic "abcd1234" None sample_server_complete
           (ByError (Err "late")) ByComplete
           [CallComplete; StreamError (Err "x"); StreamData sample_unsupported]).
  vm_compute. discriminate.
Defined.

(** ** Forwarding failures *)

(** C1, as the code has it: an error raised while forwarding a proxied
    request (an unsupported request case, or a transport that raises) is
    caught, wrapped in an [IOError] and passed to [error(e)].  On a status
    other than [OK] that changes nothing; on [OK] it fails every pending
    request with reason [CLIENT_ERROR], empties the table, sets the status
    to [CLIENT_ERROR] and cancels the stream; no frame is written. *)
Theorem forwarding_failure_calls_error (c : GrpcClient) (m : ActionMessage)
    (requestCase : N) (Hack : getAck m = 0%N)
    (Hcase : getPayload m = WECHATREQUEST (REQUEST_OTHER requestCase)) :
  _onServerMessage m c
  = error (forwardingError c
             (Err ("unsupported wechat request case: " +:+ pretty requestCase))) c
  ∧ (∀ r ack e, forward_settled r ack (Raises e) c = error (forwardingError c e) c)
  ∧ (∀ e, _status c ≠ OK → error e c = c)
  ∧ (∀ e, _status c = OK →
       _status (error e c) = CLIENT_ERROR
       ∧ cancelled (error e c) = S (cancelled c)
       ∧ ended (error e c) = ended c
       ∧ written (error e c) = written c
       ∧ _pendingCallbacks (error e c) = ∅
       ∧ ∀ k pc, _pendingCallbacks c !! k = Some pc →
           promises c !! pc_promise pc = Some Pending →
           promises (error e c) !! pc_promise pc
           = Some (Rejected (newSubRequestCancelError (traceId c) CLIENT_ERROR
                               (Some e) None))).
Proof.
  split.
  { unfold _onServerMessage. rewrite Hack, Hcase. by case_decide. }
  split; [done|]. split; [intros e; apply error_terminal|].
  intros e Hok. unfold error. case_decide; [done|].
  cbn -[_failAllPendingRequest].
  destruct (_failAllPendingRequest_frame CLIENT_ERROR e c)
    as (?&?&?&?&?&?&?&?&?&?&?&?).
  split_and!; try done; try congruence.
  intros k pc Hk Hp. by apply _failAllPendingRequest_rejects with k.
Qed.

Lemma forwarding_failure_calls_error_witness :
  _onServerMessage sample_unsupported sample_waiting
  = error (forwardingError sample_waiting
             (Err ("unsupported wechat request case: " +:+ pretty 0%N)))
      sample_waiting
  ∧ (∀ r ack e, forward_settled r ack (Raises e) sample_waiting
                = error (forwardingError sample_waiting e)
                    sample_waiting)
  ∧ (∀ e, _status sample_waiting ≠ OK →
          error e sample_waiting = sample_waiting)
  ∧ (∀ e, _status sample_waiting = OK →
       _status (error e sample_waiting) = CLIENT_ERROR
       ∧ cancelled (error e sample_waiting)
         = S (cancelled sample_waiting)
       ∧ ended (error e sample_waiting) = ended sample_waiting
       ∧ written (error e sample_waiting)
         = written sample_waiting
       ∧ _pendingCallbacks (error e sample_waiting) = ∅
       ∧ ∀ k pc, _pendingCallbacks sample_waiting !! k = Some pc →
           promises sample_waiting !! pc_promise pc = Some Pending →
           promises (error e sample_waiting) !! pc_promise pc
           = Some (Rejected (newSubRequestCancelError
                               (traceId sample_waiting) CLIENT_ERROR
                               (Some e) None))).
Proof.
  apply (forwarding_failure_calls_error sample_waiting
           sample_unsupported 0%N); reflexivity.
Defined.

(** C1 as stated fails: with one request pending on a healthy stream, a
    proxied request of an unsupported case sets the status to
    [CLIENT_ERROR], cancels the stream and fails the pending request. *)
Lemma forwarding_failure_tears_down :
  _status sample_waiting = OK
  ∧ promises sample_waiting !! 0 = Some Pending
  ∧ _status (_onServerMessage sample_unsupported sample_waiting) = CLIENT_ERROR
  ∧ cancelled (_onServerMessage sample_unsupported sample_waiting) = 1
  ∧ promises (_onServerMessage sample_unsupported sample_waiting) !! 0
    = Some (Rejected
        (SubRequestCancelError CLIENT_ERROR
           (Some (IOError (Some (Err "unsupported wechat request case: 0"))
                    "[tid:abcd1234] Exception while forwarding message to wechat"))
           "[tid:abcd1234] request has been cancelled for reason: CLIENT_ERROR")).
Proof. vm_compute. done. Qed.

(** ** The guard before sending *)

(** C2, as the code has it: [request], [sendOnly] and the replies all go
    through [_sendMessage].  With the status [SERVER_ERROR],
    [CLIENT_ERROR] or [CLIENT_COMPLETE] nothing is written and the call
    fails with a [SubRequestCancelError] whose reason is that status (the
    promise of a correlated request is rejected with it).  With the status
    [OK] and also with [SERVER_COMPLETE] the frame is written, and a
    correlated request is left waiting. *)
Theorem send_guard (req : Payload) (sendOnly : bool) (ack : option N)
    (c : GrpcClient) :
  let r := _sendMessage req sendOnly ack c in
  let seq := if sendOnly then None else Some (js_incr (_seqId c)) in
  let p := length (promises c) in
  let e := newSubRequestCancelError (traceId c) (_status c) None
             (Some "can not send message while stream status is not illegal") in
  match _status c with
  | OK | SERVER_COMPLETE =>
      written r.1
      = written c ++ [{| hdr_seq := seq; hdr_ack := ack; msg_payload := req |}]
      ∧ if sendOnly then r.2 = Sent
        else r.2 = Awaiting p ∧ promises r.1 !! p = Some Pending
  | SERVER_ERROR | CLIENT_ERROR | CLIENT_COMPLETE =>
      written r.1 = written c
      ∧ if sendOnly then r = (c, Threw e)
        else r.2 = Awaiting p ∧ promises r.1 !! p = Some (Rejected e)
  end.
Proof.
  assert (Hnew : ∀ (ps : list PromiseState) x, (ps ++ [x]) !! length ps = Some x).
  { intros ps x. by rewrite lookup_app_r, Nat.sub_diag by lia. }
  unfold _sendMessage, __sendMessage.
  destruct (_status c) eqn:Hs, sendOnly; cbn; rewrite ?Hs; cbn;
    try done; split; try done; split; try done;
    try apply Hnew; by apply settle_pending.
Qed.

(** C2 as stated fails at [SERVER_COMPLETE]: after the server closed the
    stream a fire-and-forget send still writes its frame and succeeds, and a
    correlated request writes its frame and waits. *)
Lemma send_allowed_after_server_complete :
  _status sample_server_complete = SERVER_COMPLETE
  ∧ (_sendMessage sample_payload true None sample_server_complete).2 = Sent
  ∧ written (_sendMessage sample_payload true None sample_server_complete).1
    = written sample_server_complete
      ++ [{| hdr_seq := None; hdr_ack := None; msg_payload := sample_payload |}]
  ∧ (request sample_payload sample_server_complete).2 = Awaiting 1
  ∧ promises (request sample_payload sample_server_complete).1 !! 1
    = Some Pending
  ∧ written (request sample_payload sample_server_complete).1
    = written sample_server_complete
      ++ [{| hdr_seq := Some 2%N; hdr_ack := None; msg_payload := sample_payload |}].
Proof. vm_compute. done. Qed.

(** ** Replies *)

Lemma _onServerMessage_reply m c :
  getAck m ≠ 0%N →
  _onServerMessage m c
  = _completePendingRequest (getAck m) (getPayload m) (getSeq m) c.
Proof. intros H. unfold _onServerMessage. by case_decide. Qed.

Lemma _completePendingRequest_absent k payload seq c :
  _pendingCallbacks c !! k = None → _completePendingRequest k payload seq c = c.
Proof.
  intros H. unfold _completePendingRequest. rewrite H.
  rewrite delete_id by done. apply set_pending_same.
Qed.

(** C5: a frame with [ack = k] (a non-zero [ack], which is how the header
    carries one) removes the entry registered under [k] and resolves its
    promise with the frame's payload and [seq] (0 when the frame has
    none); every other entry, every
    other promise, the status and the stream are untouched; when no entry
    is registered under [k] the frame changes nothing; and after it, any
    further frame with [ack = k] changes nothing. *)
Theorem reply_resolves_its_request (m : ActionMessage) (c : GrpcClient) (k : N)
    (Hk : getAck m = k) (Hnz : k ≠ 0%N) :
  let c' := _onServerMessage m c in
  let w := {| sr_payload := getPayload m; sr_ack := getSeq m |} in
  _pendingCallbacks c' = delete k (_pendingCallbacks c)
  ∧ match _pendingCallbacks c !! k with
    | Some pc =>
        promises c' = settle (pc_promise pc) (Resolved w) (promises c)
        ∧ (promises c !! pc_promise pc = Some Pending →
           promises c' !! pc_promise pc = Some (Resolved w))
        ∧ (∀ q, q ≠ pc_promise pc → promises c' !! q = promises c !! q)
        ∧ timers c' = <[pc_timeoutId pc := None]> (timers c)
    | None => c' = c
    end
  ∧ (∀ j, j ≠ k → _pendingCallbacks c' !! j = _pendingCallbacks c !! j)
  ∧ _status c' = _status c ∧ _seqId c' = _seqId c ∧ written c' = written c
  ∧ cancelled c' = cancelled c ∧ ended c' = ended c
  ∧ forwarding c' = forwarding c ∧ delivered c' = delivered c
  ∧ unhandled c' = unhandled c
  ∧ (∀ m', getAck m' = k → _onServerMessage m' c' = c').
Proof.
  subst k. cbn zeta. rewrite _onServerMessage_reply by done.
  assert (Hdel : _pendingCallbacks
                   (_completePendingRequest (getAck m) (getPayload m) (getSeq m) c)
                 = delete (getAck m) (_pendingCallbacks c)).
  { unfold _completePendingRequest. by destruct (_pendingCallbacks c !! getAck m). }
  split; [done|]. split.
  { destruct (_pendingCallbacks c !! getAck m) as [pc|] eqn:Hpc.
    - unfold _completePendingRequest. rewrite Hpc. cbn.
      split_and!; try done.
      + by apply settle_pending.
      + intros q Hq. by apply settle_other.
    - by apply _completePendingRequest_absent. }
  split. { intros j Hj. rewrite Hdel. by apply lookup_delete_ne. }
  split_and!;
    try (unfold _completePendingRequest;
         by destruct (_pendingCallbacks c !! getAck m)).
  intros m' Hm'. rewrite _onServerMessage_reply by congruence.
  rewrite Hm'. apply _completePendingRequest_absent.
  rewrite Hdel. apply lookup_delete_eq.
Qed.

Lemma reply_resolves_its_request_witness :
  let c' := _onServerMessage sample_reply sample_waiting in
  let w := {| sr_payload := getPayload sample_reply;
              sr_ack := getSeq sample_reply |} in
  _pendingCallbacks c' = delete 1%N (_pendingCallbacks sample_waiting)
  ∧ match _pendingCallbacks sample_waiting !! 1%N with
    | Some pc =>
        promises c' = settle (pc_promise pc) (Resolved w) (promises sample_waiting)
        ∧ (promises sample_waiting !! pc_promise pc = Some Pending →
           promises c' !! pc_promise pc = Some (Resolved w))
        ∧ (∀ q, q ≠ pc_promise pc → promises c' !! q = promises sample_waiting !! q)
        ∧ timers c' = <[pc_timeoutId pc := None]> (timers sample_waiting)
    | None => c' = sample_waiting
    end
  ∧ (∀ j, j ≠ 1%N →
       _pendingCallbacks c' !! j = _pendingCallbacks sample_waiting !! j)
  ∧ _status c' = _status sample_waiting ∧ _seqId c' = _seqId sample_waiting
  ∧ written c' = written sample_waiting
  ∧ cancelled c' = cancelled sample_waiting ∧ ended c' = ended sample_waiting
  ∧ forwarding c' = forwarding sample_waiting
  ∧ delivered c' = delivered sample_waiting
  ∧ unhandled c' = unhandled sample_waiting
  ∧ (∀ m', getAck m' = 1%N → _onServerMessage m' c' = c').
Proof.
  apply (reply_resolves_its_request sample_reply sample_waiting 1%N);
    [reflexivity | discriminate].
Defined.

(** ** Timeouts *)






(** ** Sequence numbers *)

Lemma js_incr_exact n : (n < MAX_EXACT)%N → js_incr n = (n + 1)%N.
Proof. intros H. unfold js_incr. by case_decide. Qed.

Lemma js_incr_stuck : js_incr MAX_EXACT = MAX_EXACT.
Proof. reflexivity. Qed.

Lemma js_incr_bounds n :
  (n ≤ MAX_EXACT)%N → (1 ≤ js_incr n ∧ n ≤ js_incr n ≤ MAX_EXACT)%N.
Proof.
  intros H. unfold js_incr. case_decide; [lia|].
  assert (n = MAX_EXACT) as -> by lia. by vm_compute.
Qed.

(** One correlated [_sendMessage], field by field. *)
Lemma _sendMessage_correlated req ack c :
  let c' := (_sendMessage req false ack c).1 in
  let k := js_incr (_seqId c) in
  _seqId c' = k
  ∧ _status c' = _status c
  ∧ _pendingCallbacks c'
    = <[k := {| pc_promise := length (promises c);
                pc_timeoutId := length (timers c) |}]> (_pendingCallbacks c)
  ∧ length (promises c') = S (length (promises c))
  ∧ length (timers c') = S (length (timers c))
  ∧ written c'
    = if sendable (_status c)
      then written c ++ [{| hdr_seq := Some k; hdr_ack := ack; msg_payload := req |}]
      else written c.
Proof.
  unfold _sendMessage, __sendMessage. cbn.
  destruct (sendable (_status c)); cbn;
    rewrite ?settle_length, ?length_app; cbn; split_and!; try done; lia.
Qed.

Lemma requests_snoc reqs r c :
  requests (reqs ++ [r]) c = (_sendMessage r.1 false r.2 (requests reqs c)).1.
Proof. unfold requests. by rewrite foldl_app. Qed.

(** What [n] correlated requests on a new instance leave, for [n] up to
    2^53. *)
Lemma requests_new tid options reqs :
  (N.of_nat (length reqs) ≤ MAX_EXACT)%N →
  let c := requests reqs (new_GrpcClient tid options) in
  _seqId c = N.of_nat (length reqs)
  ∧ _status c = OK
  ∧ length (promises c) = length reqs
  ∧ length (timers c) = length reqs
  ∧ hdr_seq <$> written c = (λ i, Some (N.of_nat i)) <$> seq 1 (length reqs)
  ∧ ∀ k, _pendingCallbacks c !! k
         = if decide (1 ≤ k ≤ N.of_nat (length reqs))%N
           then Some {| pc_promise := N.to_nat k - 1;
                        pc_timeoutId := N.to_nat k - 1 |}
           else None.
Proof.
  induction reqs as [|r reqs IH] using rev_ind; intros Hn c.
  { subst c. cbn. split_and!; try done. intros k. rewrite lookup_empty.
    case_decide; [lia|done]. }
  rewrite length_app in Hn. cbn in Hn.
  destruct IH as (Hseq & Hst & Hps & Hts & Hw & Hpend); [lia|].
  subst c. rewrite requests_snoc.
  destruct (_sendMessage_correlated r.1 r.2
              (requests reqs (new_GrpcClient tid options)))
    as (Hseq' & Hst' & Hpend' & Hps' & Hts' & Hw').
  rewrite Hseq, js_incr_exact in * by lia.
  rewrite length_app. cbn [length].
  replace (length reqs + 1) with (S (length reqs)) by lia.
  split_and!.
  - rewrite Hseq'. lia.
  - congruence.
  - lia.
  - lia.
  - rewrite Hw', Hst.
    change (sendable OK) with true. cbv iota.
    rewrite fmap_app, Hw, seq_S, fmap_app. cbn. do 3 f_equal. lia.
  - intros k. rewrite Hpend', Hps, Hts.
    destruct (decide (k = N.of_nat (length reqs) + 1)%N) as [->|Hk].
    + rewrite lookup_insert_eq. case_decide; [|lia].
      do 2 f_equal; lia.
    + rewrite lookup_insert_ne, Hpend by done.
      repeat case_decide; try done; lia.
Qed.

Lemma allocates_nothing_refl c : allocates_nothing c c.
Proof. split_and!; try done. intros m Hm. by left. Qed.

Lemma allocates_nothing_fields c c' :
  _seqId c' = _seqId c → _pendingCallbacks c' = _pendingCallbacks c →
  written c' = written c → allocates_nothing c c'.
Proof.
  intros Hs Hp Hw. unfold allocates_nothing. rewrite Hs, Hp, Hw.
  split_and!; try done. intros m Hm. by left.
Qed.

Lemma allocates_nothing_trans c1 c2 c3 :
  allocates_nothing c1 c2 → allocates_nothing c2 c3 → allocates_nothing c1 c3.
Proof.
  intros (Hs1 & Hp1 & Hw1) (Hs2 & Hp2 & Hw2). split_and!.
  - congruence.
  - intros k pc Hk. by apply Hp1, Hp2.
  - intros m Hm. destruct (Hw2 m Hm) as [Hm2|?]; [|by right]. by apply Hw1.
Qed.

Lemma seqs_in_range_kept c c' :
  allocates_nothing c c' → seqs_in_range c → seqs_in_range c'.
Proof.
  intros (Hs & Hp & Hw) (Hmax & Hkeys & Hfr). unfold seqs_in_range.
  rewrite Hs. split_and!; [done| |].
  - intros k pc Hk. eapply Hkeys, Hp, Hk.
  - intros m s0 Hm Hseq. destruct (Hw m Hm) as [Hm'|Hnone]; [|congruence].
    by eapply Hfr.
Qed.

Lemma send_only_allocates_nothing req ack c :
  allocates_nothing c (_sendMessage req true ack c).1.
Proof.
  unfold _sendMessage, __sendMessage.
  destruct (sendable (_status c)); cbn; [|apply allocates_nothing_refl].
  split_and!; try done. cbn. intros m Hm.
  apply elem_of_app in Hm as [?|Hm]; [by left|].
  apply list_elem_of_singleton in Hm as ->. by right.
Qed.

Lemma subReply_allocates_nothing ack replay c :
  allocates_nothing c (subReply ack replay c).
Proof.
  unfold subReply.
  pose proof (send_only_allocates_nothing replay (Some ack) c) as H.
  by destruct (_sendMessage replay true (Some ack) c) as [c' []].
Qed.

Lemma _completePendingRequest_allocates_nothing ack payload seq c :
  allocates_nothing c (_completePendingRequest ack payload seq c).
Proof.
  unfold _completePendingRequest.
  destruct (_pendingCallbacks c !! ack); cbn; (split_and!; cbn; [done| |by left]);
    intros k pc; rewrite lookup_delete_Some; tauto.
Qed.

Lemma _failPendingRequest_allocates_nothing ack e c :
  allocates_nothing c (_failPendingRequest ack e c).
Proof.
  unfold _failPendingRequest.
  destruct (_pendingCallbacks c !! ack); cbn; (split_and!; cbn; [done| |by left]);
    intros k pc; rewrite lookup_delete_Some; tauto.
Qed.

Lemma transition_allocates_nothing t c : allocates_nothing c (transition t c).
Proof.
  destruct t; cbn; unfold on_end, on_error, error, complete;
    (case_decide; [apply allocates_nothing_refl|]);
    cbn -[_failAllPendingRequest];
    match goal with
    | |- context [_failAllPendingRequest ?st ?e c] =>
        destruct (_failAllPendingRequest_frame st e c)
          as (_&_&Hs&_&Hp&Hw&_)
    end;
    (split_and!; cbn -[_failAllPendingRequest];
     [done | by rewrite Hp | rewrite Hw; by left]).
Qed.

Lemma error_allocates_nothing e c : allocates_nothing c (error e c).
Proof. apply (transition_allocates_nothing (ByError e)). Qed.

Lemma step_seqs_in_range c ev : seqs_in_range c → seqs_in_range (step c ev).
Proof.
  intros Hinv.
  destruct ev as [req [] ack|e| |m| |e|t|i o]; cbn [step].
  - eapply seqs_in_range_kept, Hinv. apply send_only_allocates_nothing.
  - destruct Hinv as (Hmax & Hkeys & Hfr).
    destruct (_sendMessage_correlated req ack c) as (Hs & _ & Hp & _ & _ & Hw).
    destruct (js_incr_bounds _ Hmax) as (H1 & Hge & Hle).
    unfold seqs_in_range. rewrite Hs, Hp, Hw. split_and!; [done| |].
    + intros k pc Hk. apply lookup_insert_Some in Hk as [[<- _]|[_ Hk]]; [lia|].
      apply Hkeys in Hk. lia.
    + intros m s0 Hm Hseq.
      assert (m ∈ written c ∨ hdr_seq m = Some (js_incr (_seqId c))) as [Hm'|Hm'].
      { destruct (sendable (_status c)); [|by left].
        apply elem_of_app in Hm as [?|Hm]; [by left|].
        apply list_elem_of_singleton in Hm as ->. by right. }
      * specialize (Hfr m s0 Hm' Hseq). lia.
      * assert (s0 = js_incr (_seqId c)) as -> by congruence. lia.
  - eapply seqs_in_range_kept, Hinv. apply error_allocates_nothing.
  - eapply seqs_in_range_kept, Hinv. apply (transition_allocates_nothing ByComplete).
  - eapply seqs_in_range_kept, Hinv. unfold _onServerMessage. case_decide.
    + apply _completePendingRequest_allocates_nothing.
    + destruct (getPayload m) as [[]| | | |]; cbn;
        try apply error_allocates_nothing;
        try (by apply allocates_nothing_fields).
      apply (allocates_nothing_trans _ (subReply (getSeq m) SYSTEMEVENTRESPONSE c));
        [apply subReply_allocates_nothing|by apply allocates_nothing_fields].
  - eapply seqs_in_range_kept, Hinv. apply (transition_allocates_nothing ByStreamEnd).
  - eapply seqs_in_range_kept, Hinv. apply (transition_allocates_nothing (ByStreamError e)).
  - eapply seqs_in_range_kept, Hinv. unfold timer_fires.
    destruct (timers c !! t) as [[tm|]|]; try apply allocates_nothing_refl.
    apply (allocates_nothing_trans _ (set_timers (<[t:=None]> (timers c)) c));
      [by apply allocates_nothing_fields|apply _failPendingRequest_allocates_nothing].
  - destruct (forwarding c !! i) as [[r ack]|]; [|done].
    eapply seqs_in_range_kept, Hinv.
    apply (allocates_nothing_trans _ (set_forwarding (delete i (forwarding c)) c));
      [by apply allocates_nothing_fields|].
    unfold forward_settled. destruct o as [e|data].
    + apply error_allocates_nothing.
    + destruct r as [| ? ? []| |];
        try apply subReply_allocates_nothing; apply allocates_nothing_refl.
Qed.

Lemma run_seqs_in_range tid options evs :
  seqs_in_range (run (new_GrpcClient tid options) evs).
Proof.
  assert (H0 : seqs_in_range (new_GrpcClient tid options)).
  { split_and!; cbn; [by vm_compute| |]; intros ? ?.
    - by rewrite lookup_empty.
    - by intros ?%elem_of_nil. }
  revert H0. generalize (new_GrpcClient tid options).
  induction evs as [|ev evs IH]; intros c Hc; [done|].
  cbn. by apply IH, step_seqs_in_range.
Qed.

(** C4, as the code has it: up to 2^53 correlated requests issued on a new
    instance before any reply write frames whose [seq] are 1, 2, 3, ... in
    order, leave the counter at their number, and leave the table with
    exactly one entry for each of these numbers (the i-th request's under
    i) and no other key.  Whatever has happened to an instance, the keys
    of its table are pairwise distinct, and while its counter is below 2^53 a
    correlated request is given the counter plus one, which is above every
    key of the table and every [seq] written so far. *)
Theorem sequence_numbers_count_up (tid : string) (options : option Options)
    (reqs : list (Payload * option N))
    (Hn : (N.of_nat (length reqs) ≤ MAX_EXACT)%N) :
  let c := requests reqs (new_GrpcClient tid options) in
  hdr_seq <$> written c = (λ i, Some (N.of_nat i)) <$> seq 1 (length reqs)
  ∧ _seqId c = N.of_nat (length reqs)
  ∧ (∀ k, _pendingCallbacks c !! k
          = if decide (1 ≤ k ≤ N.of_nat (length reqs))%N
            then Some {| pc_promise := N.to_nat k - 1;
                         pc_timeoutId := N.to_nat k - 1 |}
            else None)
  ∧ (∀ evs, NoDup (map_to_list
                     (_pendingCallbacks (run (new_GrpcClient tid options) evs))).*1)
  ∧ (∀ evs req ack,
       let c0 := run (new_GrpcClient tid options) evs in
       (_seqId c0 < MAX_EXACT)%N →
       let c1 := (_sendMessage req false ack c0).1 in
       _seqId c1 = (_seqId c0 + 1)%N
       ∧ _pendingCallbacks c1 !! (_seqId c0 + 1)%N
         = Some {| pc_promise := length (promises c0);
                   pc_timeoutId := length (timers c0) |}
       ∧ (∀ k pc, _pendingCallbacks c0 !! k = Some pc → (k < _seqId c0 + 1)%N)
       ∧ (∀ m s, m ∈ written c0 → hdr_seq m = Some s → (s < _seqId c0 + 1)%N)).
Proof.
  intros c.
  destruct (requests_new tid options reqs Hn) as (Hseq & _ & _ & _ & Hw & Hpend).
  split_and!; try done.
  - intros evs. apply NoDup_fst_map_to_list.
  - intros evs req ack c0 Hlt c1.
    destruct (run_seqs_in_range tid options evs) as (_ & Hkeys & Hfr).
    destruct (_sendMessage_correlated req ack c0) as (Hs & _ & Hp & _).
    subst c1. rewrite Hs, Hp, js_incr_exact by done.
    split_and!; [done|apply lookup_insert_eq| |].
    + intros k pc Hk. apply Hkeys in Hk. fold c0 in Hk. lia.
    + intros m s0 Hm Hs0. specialize (Hfr m s0 Hm Hs0). fold c0 in Hfr. lia.
Qed.

Lemma sequence_numbers_count_up_witness :
  let reqs := [(sample_payload, None); (sample_payload, Some 7%N)] in
  let c := requests reqs (new_GrpcClient "abcd1234" None) in
  hdr_seq <$> written c = (λ i, Some (N.of_nat i)) <$> seq 1 (length reqs)
  ∧ _seqId c = N.of_nat (length reqs)
  ∧ (∀ k, _pendingCallbacks c !! k
          = if decide (1 ≤ k ≤ N.of_nat (length reqs))%N
            then Some {| pc_promise := N.to_nat k - 1;
                         pc_timeoutId := N.to_nat k - 1 |}
            else None)
  ∧ (∀ evs, NoDup (map_to_list
                     (_pendingCallbacks (run (new_GrpcClient "abcd1234" None) evs))).*1)
  ∧ (∀ evs req ack,
       let c0 := run (new_GrpcClient "abcd1234" None) evs in
       (_seqId c0 < MAX_EXACT)%N →
       let c1 := (_sendMessage req false ack c0).1 in
       _seqId c1 = (_seqId c0 + 1)%N
       ∧ _pendingCallbacks c1 !! (_seqId c0 + 1)%N
         = Some {| pc_promise := length (promises c0);
                   pc_timeoutId := length (timers c0) |}
       ∧ (∀ k pc, _pendingCallbacks c0 !! k = Some pc → (k < _seqId c0 + 1)%N)
       ∧ (∀ m s, m ∈ written c0 → hdr_seq m = Some s → (s < _seqId c0 + 1)%N)).
Proof.
  apply (sequence_numbers_count_up "abcd1234" None
           [(sample_payload, None); (sample_payload, Some 7%N)]).
  vm_compute. discriminate.
Defined.

Lemma request_on_OK req c :
  _status c = OK →
  written (request req c).1
  = written c ++ [{| hdr_seq := Some (js_incr (_seqId c)); hdr_ack := None;
                     msg_payload := req |}]
  ∧ _seqId (request req c).1 = js_incr (_seqId c)
  ∧ _status (request req c).1 = OK.
Proof.
  intros Hst. unfold request, subRequest.
  destruct (_sendMessage_correlated req None c) as (Hs & Hst' & _ & _ & _ & Hw).
  rewrite Hs, Hst', Hw, Hst. done.
Qed.

(** The counter sticks at 2^53: the request after 2^53 - 1 others is given
    2^53, and so is the one after it. *)
Lemma sequence_number_sticks tid options reqs req :
  N.of_nat (length reqs) = (MAX_EXACT - 1)%N →
  let c := requests reqs (new_GrpcClient tid options) in
  let c1 := (request req c).1 in
  let c2 := (request req c1).1 in
  last (written c1)
  = Some {| hdr_seq := Some MAX_EXACT; hdr_ack := None; msg_payload := req |}
  ∧ last (written c2)
    = Some {| hdr_seq := Some MAX_EXACT; hdr_ack := None; msg_payload := req |}.
Proof.
  intros Hlen c c1 c2.
  assert (Hle : (N.of_nat (length reqs) ≤ MAX_EXACT)%N).
  { rewrite Hlen. vm_compute. discriminate. }
  destruct (requests_new tid options reqs Hle) as (Hseq & Hst & _).
  destruct (request_on_OK req _ Hst) as (Hw1 & Hs1 & Hst1).
  destruct (request_on_OK req _ Hst1) as (Hw2 & Hs2 & _).
  subst c2 c1 c. rewrite Hw2, Hw1, Hs1, Hseq, Hlen, !last_snoc.
  change (js_incr (MAX_EXACT - 1)) with MAX_EXACT.
  change (js_incr MAX_EXACT) with MAX_EXACT.
  split; reflexivity.
Qed.

(** C4 as stated fails for the request number 2^53 + 1: it is given the
    number of the request before it. *)
Lemma sequence_number_reused_at_2_53 :
  let c := requests (replicate (N.to_nat (MAX_EXACT - 1)) (sample_payload, None))
             sample_new in
  let c1 := (request sample_payload c).1 in
  let c2 := (request sample_payload c1).1 in
  last (written c1)
  = Some {| hdr_seq := Some MAX_EXACT; hdr_ack := None;
            msg_payload := sample_payload |}
  ∧ last (written c2)
    = Some {| hdr_seq := Some MAX_EXACT; hdr_ack := None;
              msg_payload := sample_payload |}.
Proof.
  apply (sequence_number_sticks "abcd1234" None
           (replicate (N.to_nat (MAX_EXACT - 1)) (sample_payload, None))
           sample_payload).
  rewrite length_replicate. apply N2Nat.id.
Qed.

(** ** Zero means no ack *)




(** ** Further properties *)

(** X1: when the stream ends on a healthy instance, every pending request
    fails with reason [SERVER_COMPLETE], the table is emptied and the
    status becomes [SERVER_COMPLETE]; the stream is neither cancelled nor
    ended by the client, and a later [error(e)] or [complete()] changes
    nothing. *)
Theorem stream_end_fails_pending (c : GrpcClient) (e : Error) (k : N)
    (pc : PromiseCallback)
    (Hok : _status c = OK)
    (Hk : _pendingCallbacks c !! k = Some pc)
    (Hp : promises c !! pc_promise pc = Some Pending) :
  let c' := on_end c in
  _status c' = SERVER_COMPLETE
  ∧ promises c' !! pc_promise pc
    = Some (Rejected (newSubRequestCancelError (traceId c) SERVER_COMPLETE
                        (Some (Err "Server complete")) None))
  ∧ _pendingCallbacks c' = ∅
  ∧ cancelled c' = cancelled c ∧ ended c' = ended c ∧ written c' = written c
  ∧ error e c' = c' ∧ complete c' = c'.
Proof.
  cbn zeta.
  assert (Hst : _status (on_end c) = SERVER_COMPLETE).
  { unfold on_end. by case_decide. }
  assert (Hoff : _status (on_end c) ≠ OK) by (by rewrite Hst).
  split; [done|]. split.
  { unfold on_end. case_decide; [done|]. cbn -[_failAllPendingRequest].
    by apply _failAllPendingRequest_rejects with k. }
  split_and!; [..|by apply error_terminal|by apply complete_terminal];
    unfold on_end; (case_decide; [done|]); cbn -[_failAllPendingRequest];
    destruct (_failAllPendingRequest_frame SERVER_COMPLETE
                (Err "Server complete") c)
      as (?&?&?&?&?&?&?&?&?&?&?&?); done.
Qed.

Lemma stream_end_fails_pending_witness :
  let c := sample_waiting in
  let pc := {| pc_promise := 0; pc_timeoutId := 0 |} in
  let c' := on_end c in
  _status c' = SERVER_COMPLETE
  ∧ promises c' !! pc_promise pc
    = Some (Rejected (newSubRequestCancelError (traceId c) SERVER_COMPLETE
                        (Some (Err "Server complete")) None))
  ∧ _pendingCallbacks c' = ∅
  ∧ cancelled c' = cancelled c ∧ ended c' = ended c ∧ written c' = written c
  ∧ error (Err "late") c' = c' ∧ complete c' = c'.
Proof.
  apply (stream_end_fails_pending sample_waiting (Err "late") 1%N
           {| pc_promise := 0; pc_timeoutId := 0 |}); reflexivity.
Defined.



Lemma settle_keeps q r ps p s :
  ps !! p = Some s → s ≠ Pending → settle q r ps !! p = Some s.
Proof.
  intros Hp Hs. destruct (decide (q = p)) as [->|Hne].
  - rewrite settle_settled; [done|]. rewrite Hp. congruence.
  - by rewrite settle_other.
Qed.





Lemma pc_resolve_keeps_settled pc w c : keeps_settled c (pc_resolve pc w c).
Proof. intros p s Hp Hs. cbn. by apply settle_keeps. Qed.








(** ** Bookkeeping of promises and timers *)

Lemma js_incr_ge n : (n ≤ js_incr n)%N.
Proof. unfold js_incr. case_decide; lia. Qed.

Lemma step_seqId c ev :
  _seqId (step c ev)
  = match ev with
    | CallSend _ false _ => js_incr (_seqId c)
    | _ => _seqId c
    end.
Proof.
  destruct ev as [req [] ack|e| |m| |e|t|i o]; cbn [step].
  - apply send_only_allocates_nothing.
  - apply _sendMessage_correlated.
  - apply error_allocates_nothing.
  - apply (transition_allocates_nothing ByComplete).
  - unfold _onServerMessage. case_decide.
    + apply _completePendingRequest_allocates_nothing.
    + destruct (getPayload m) as [[]| | | |]; cbn -[error]; try done.
      * apply error_allocates_nothing.
      * apply subReply_allocates_nothing.
  - apply (transition_allocates_nothing ByStreamEnd).
  - apply (transition_allocates_nothing (ByStreamError e)).
  - unfold timer_fires. destruct (timers c !! t) as [[tm|]|]; try done.
    apply (_failPendingRequest_allocates_nothing (t_seq tm) _
             (set_timers (<[t:=None]> (timers c)) c)).
  - destruct (forwarding c !! i) as [[r ack]|]; [|done].
    unfold forward_settled. destruct o as [e|data].
    + apply (error_allocates_nothing _ (set_forwarding (delete i (forwarding c)) c)).
    + destruct r as [| ? ? []| |]; try done;
        apply (subReply_allocates_nothing _ _
                 (set_forwarding (delete i (forwarding c)) c)).
Qed.

Lemma step_seqId_mono c ev : (_seqId c ≤ _seqId (step c ev))%N.
Proof.
  rewrite step_seqId. destruct ev as [? [] ?| | | | | | |]; try lia.
  apply js_incr_ge.
Qed.

Lemma run_seqId_mono c evs : (_seqId c ≤ _seqId (run c evs))%N.
Proof.
  revert c. induction evs as [|ev evs IH]; intros c; cbn; [lia|].
  etrans; [apply (step_seqId_mono c ev)|apply IH].
Qed.

Lemma run_app c evs evs' : run c (evs ++ evs') = run (run c evs) evs'.
Proof. unfold run. apply foldl_app. Qed.

Lemma clear_lookup_armed (ts : list (option Timer)) t t' tm :
  <[t := None]> ts !! t' = Some (Some tm) → ts !! t' = Some (Some tm).
Proof.
  destruct (decide (t = t')) as [->|Hne]; [|by rewrite list_lookup_insert_ne].
  destruct (decide (t' < length ts)) as [Hlt|Hge].
  - by rewrite list_lookup_insert_eq.
  - by rewrite list_insert_ge by lia.
Qed.

Lemma settle_still_pending q r ps p :
  r ≠ Pending → settle q r ps !! p = Some Pending →
  ps !! p = Some Pending ∧ q ≠ p.
Proof.
  intros Hr Hp. destruct (decide (q = p)) as [->|Hne].
  - exfalso. destruct (ps !! p) as [[| |]|] eqn:Hq.
    + rewrite settle_pending in Hp by done. congruence.
    + rewrite settle_settled in Hp; congruence.
    + rewrite settle_settled in Hp; congruence.
    + rewrite settle_settled in Hp; congruence.
  - by rewrite settle_other in Hp.
Qed.

Lemma settles_only_refl c : settles_only c c.
Proof. by split_and!. Qed.

Lemma settles_only_trans c1 c2 c3 :
  settles_only c1 c2 → settles_only c2 c3 → settles_only c1 c3.
Proof.
  intros (Hp1 & Ht1 & Ha1 & Hs1) (Hp2 & Ht2 & Ha2 & Hs2). split_and!.
  - congruence.
  - congruence.
  - intros t tm H. by apply Ha1, Ha2.
  - intros p H. by apply Hs1, Hs2.
Qed.

Lemma pc_reject_settles_only pc e c : settles_only c (pc_reject pc e c).
Proof.
  split_and!; cbn.
  - apply settle_length.
  - apply length_insert.
  - intros t tm. apply clear_lookup_armed.
  - intros p Hp. by apply settle_still_pending in Hp as [? _].
Qed.

Lemma reject_all_settles_only e entries c :
  settles_only c (reject_all e entries c).
Proof.
  revert c. induction entries as [|[k pc] entries IH]; intros c.
  { apply settles_only_refl. }
  rewrite reject_all_cons.
  eapply settles_only_trans; [apply pc_reject_settles_only|apply IH].
Qed.

Lemma reject_all_settles_entries e entries c k pc :
  (k, pc) ∈ entries →
  promises (reject_all e entries c) !! pc_promise pc ≠ Some Pending.
Proof.
  intros Hin Hp.
  destruct (reject_all_settles_only e entries c) as (_ & _ & _ & Hs).
  specialize (Hs _ Hp).
  rewrite (reject_all_rejects e entries c k pc Hin Hs) in Hp. congruence.
Qed.

Lemma in_step_new tid options : in_step (new_GrpcClient tid options).
Proof.
  split_and!; cbn; done.
Qed.

(** An entry leaves the table and its promise is settled. *)
Lemma in_step_settle_entry c c' k pc r :
  in_step c → _pendingCallbacks c !! k = Some pc → r ≠ Pending →
  _seqId c' = _seqId c →
  _pendingCallbacks c' = delete k (_pendingCallbacks c) →
  promises c' = settle (pc_promise pc) r (promises c) →
  timers c' = <[pc_timeoutId pc := None]> (timers c) →
  in_step c'.
Proof.
  intros (Hlp & Hlt & Hent & Harm & Htr) Hk Hr Hs Hp Hpr Hti.
  destruct (Hent k pc Hk) as (Hk0 & ->). cbn in *.
  unfold in_step. rewrite Hs, Hp, Hpr, Hti, settle_length, length_insert.
  split_and!; try done.
  - intros k' pc' Hk'. apply lookup_delete_Some in Hk' as [_ Hk']. by apply Hent.
  - intros t tm Ht. by apply clear_lookup_armed, Harm in Ht.
  - intros p Hpend. apply settle_still_pending in Hpend as [Hpend Hne]; [|done].
    destruct (Htr p Hpend) as (Hentry & tm & Htm).
    assert (N.of_nat (S p) ≠ k) by lia.
    rewrite lookup_delete_ne by done. split; [done|].
    exists tm. by rewrite list_lookup_insert_ne.
Qed.

(** A timer fires whose entry has left the table already. *)
Lemma in_step_spent_timer c c' t tm :
  in_step c → timers c !! t = Some (Some tm) →
  _pendingCallbacks c !! t_seq tm = None →
  _seqId c' = _seqId c →
  _pendingCallbacks c' = _pendingCallbacks c →
  promises c' = promises c →
  timers c' = <[t := None]> (timers c) →
  in_step c'.
Proof.
  intros (Hlp & Hlt & Hent & Harm & Htr) Ht Hnone Hs Hp Hpr Hti.
  pose proof (Harm t tm Ht) as Hseq. rewrite Hseq in Hnone.
  unfold in_step. rewrite Hs, Hp, Hpr, Hti, length_insert.
  split_and!; try done.
  - intros t' tm' Ht'. by apply clear_lookup_armed, Harm in Ht'.
  - intros p Hpend. destruct (Htr p Hpend) as (Hentry & tm' & Htm').
    split; [done|]. exists tm'.
    assert (t ≠ p) by (intros ->; congruence).
    by rewrite list_lookup_insert_ne.
Qed.

(** The whole table is failed and cleared. *)
Lemma in_step_teardown status e c :
  in_step c → in_step (_failAllPendingRequest status e c).
Proof.
  intros (Hlp & Hlt & Hent & Harm & Htr).
  destruct (_failAllPendingRequest_frame status e c)
    as (_ & _ & Hs & _ & Hp & _).
  unfold in_step. rewrite Hs, Hp.
  unfold _failAllPendingRequest. cbn.
  destruct (reject_all_settles_only
              (newSubRequestCancelError (traceId c) status (Some e) None)
              (map_to_list (_pendingCallbacks c)) c)
    as (Hlp' & Hlt' & Harm' & Hs').
  split_and!.
  - congruence.
  - congruence.
  - intros k pc. by rewrite lookup_empty.
  - intros t tm Ht. by apply Harm, Harm'.
  - intros p Hpend. exfalso.
    destruct (Htr p (Hs' p Hpend)) as (Hentry & _).
    apply elem_of_map_to_list in Hentry.
    exact (reject_all_settles_entries _ _ c _ _ Hentry Hpend).
Qed.

Lemma in_step_fields c c' :
  in_step c → _seqId c' = _seqId c →
  _pendingCallbacks c' = _pendingCallbacks c →
  promises c' = promises c → timers c' = timers c → in_step c'.
Proof. unfold in_step. by intros H -> -> -> ->. Qed.

Lemma in_step_transition t c : in_step c → in_step (transition t c).
Proof.
  intros H. destruct t; cbn; unfold on_end, on_error, error, complete;
    (case_decide; [done|]);
    eapply in_step_fields; try (eapply in_step_teardown, H); done.
Qed.

Lemma in_step_subReply ack replay c : in_step c → in_step (subReply ack replay c).
Proof.
  intros H. eapply in_step_fields; [exact H|..];
    unfold subReply, _sendMessage, __sendMessage;
    by destruct (sendable (_status c)).
Qed.

Lemma in_step_request req ack c :
  in_step c → (_seqId c < MAX_EXACT)%N →
  in_step (_sendMessage req false ack c).1.
Proof.
  intros (Hlp & Hlt & Hent & Harm & Htr) Hbound.
  assert (Hnew : ∀ A (l : list A) x, (l ++ [x]) !! length l = Some x).
  { intros A l x. by rewrite lookup_app_r, Nat.sub_diag by lia. }
  assert (Hfields :
    let c' := (_sendMessage req false ack c).1 in
    _seqId c' = (_seqId c + 1)%N
    ∧ _pendingCallbacks c'
      = <[(_seqId c + 1)%N := {| pc_promise := length (promises c);
                                  pc_timeoutId := length (timers c) |}]>
          (_pendingCallbacks c)
    ∧ timers c' = timers c ++ [Some {| t_seq := (_seqId c + 1)%N;
                                       t_delay := _requestTimeout c |}]
    ∧ ∃ r, promises c' = promises c ++ [r]).
  { unfold _sendMessage, __sendMessage. cbn. rewrite js_incr_exact by done.
    destruct (sendable (_status c)); cbn; split_and!; try done.
    - by eexists.
    - exists (Rejected
                (newSubRequestCancelError (traceId c) (_status c) None
                   (Some "can not send message while stream status is not illegal"))).
      unfold settle. rewrite Hnew.
      by rewrite insert_app_r_alt, Nat.sub_diag by lia. }
  destruct Hfields as (Hs & Hp & Hti & r & Hpr).
  unfold in_step. rewrite Hs, Hp, Hti, Hpr, !length_app. cbn [length].
  split_and!.
  - lia.
  - lia.
  - intros k pc Hk. apply lookup_insert_Some in Hk as [[<- <-]|[_ Hk]].
    + split; [lia|]. rewrite Hlp, Hlt. f_equal; lia.
    + by apply Hent.
  - intros t tm Ht.
    destruct (decide (t < length (timers c))) as [Hlt'|Hge].
    + rewrite lookup_app_l in Ht by done. by apply Harm.
    + destruct (decide (t = length (timers c))) as [->|Hne].
      * rewrite Hnew in Ht. injection Ht as <-. cbn. lia.
      * rewrite lookup_ge_None_2 in Ht; [done|]. rewrite length_app. cbn. lia.
  - intros p Hpend.
    destruct (decide (p < length (promises c))) as [Hlt'|Hge].
    + rewrite lookup_app_l in Hpend by done.
      destruct (Htr p Hpend) as (Hentry & tm & Htm).
      rewrite lookup_insert_ne by lia. split; [done|].
      exists tm. by apply lookup_app_l_Some.
    + assert (p = length (promises c)) as ->.
      { apply lookup_lt_Some in Hpend. rewrite length_app in Hpend.
        cbn in Hpend. lia. }
      replace (N.of_nat (S (length (promises c)))) with (_seqId c + 1)%N by lia.
      rewrite lookup_insert_eq. split; [f_equal; f_equal; lia|].
      eexists. replace (length (promises c)) with (length (timers c)) by lia.
      apply Hnew.
Qed.

Lemma in_step_step c ev :
  in_step c → (_seqId c < MAX_EXACT)%N → in_step (step c ev).
Proof.
  intros H Hbound.
  destruct ev as [req [] ack|e| |m| |e|t|i o]; cbn [step].
  - eapply in_step_fields; [exact H|..];
      unfold _sendMessage, __sendMessage; by destruct (sendable (_status c)).
  - by apply in_step_request.
  - by apply (in_step_transition (ByError e)).
  - by apply (in_step_transition ByComplete).
  - unfold _onServerMessage. case_decide.
    + unfold _completePendingRequest.
      destruct (_pendingCallbacks c !! getAck m) as [pc|] eqn:Hk.
      * by eapply (in_step_settle_entry c _ (getAck m) pc (Resolved _));
          [exact H|exact Hk|..].
      * eapply in_step_fields; [exact H|try done..]. cbn. by apply delete_id.
    + destruct (getPayload m) as [[]| | | |]; cbn -[error];
        try (by eapply in_step_fields; [exact H|..]).
      * by apply (in_step_transition (ByError _)).
      * eapply in_step_fields; [by apply (in_step_subReply (getSeq m) SYSTEMEVENTRESPONSE)|done..].
  - by apply (in_step_transition ByStreamEnd).
  - by apply (in_step_transition (ByStreamError e)).
  - unfold timer_fires. destruct (timers c !! t) as [[tm|]|] eqn:Ht; try done.
    unfold _failPendingRequest. cbn.
    destruct (_pendingCallbacks c !! t_seq tm) as [pc|] eqn:Hk.
    + eapply (in_step_settle_entry c _ (t_seq tm) pc (Rejected _));
        [exact H|exact Hk|done..|]. cbn.
      destruct H as (_ & _ & Hent & Harm & _).
      destruct (Hent _ _ Hk) as (_ & ->). rewrite (Harm _ _ Ht). cbn.
      replace (N.to_nat (N.of_nat (S t)) - 1) with t by lia.
      by rewrite list_insert_insert_eq.
    + eapply (in_step_spent_timer c _ t tm); try done. cbn. by apply delete_id.
  - destruct (forwarding c !! i) as [[r ack]|]; [|done].
    assert (H' : in_step (set_forwarding (delete i (forwarding c)) c)).
    { by eapply in_step_fields. }
    unfold forward_settled. destruct o as [e|data].
    + by apply (in_step_transition (ByError _)).
    + destruct r as [| ? ? []| |]; try done; by apply in_step_subReply.
Qed.

Lemma in_step_run c evs :
  in_step c → (_seqId (run c evs) < MAX_EXACT)%N → in_step (run c evs).
Proof.
  revert c. induction evs as [|ev evs IH]; intros c H Hbound; [done|].
  change (run c (ev :: evs)) with (run (step c ev) evs) in *.
  apply IH; [|done]. apply in_step_step; [done|].
  pose proof (step_seqId_mono c ev). pose proof (run_seqId_mono (step c ev) evs).
  lia.
Qed.

Lemma _failAllPendingRequest_settles_all status e c p :
  in_step c →
  promises (_failAllPendingRequest status e c) !! p ≠ Some Pending.
Proof.
  intros H Hpend.
  destruct (in_step_teardown status e c H) as (_ & _ & _ & _ & Htr).
  destruct (Htr p Hpend) as (Hentry & _).
  destruct (_failAllPendingRequest_frame status e c) as (_ & _ & _ & _ & Hp & _).
  rewrite Hp, lookup_empty in Hentry. done.
Qed.

Lemma transition_settles_all t c p :
  in_step c → _status c = OK → promises (transition t c) !! p ≠ Some Pending.
Proof.
  intros H Hok.
  destruct t; cbn; unfold on_end, on_error, error, complete;
    (case_decide; [done|]); cbn -[_failAllPendingRequest];
    by apply _failAllPendingRequest_settles_all.
Qed.

Lemma transition_rejects t c k pc :
  _status c = OK →
  _pendingCallbacks c !! k = Some pc →
  promises c !! pc_promise pc = Some Pending →
  _status (transition t c) = reason_of t
  ∧ promises (transition t c) !! pc_promise pc
    = Some (Rejected (newSubRequestCancelError (traceId c) (reason_of t)
                        (Some (cause_of t)) None)).
Proof.
  intros Hok Hk Hp.
  destruct t; cbn; unfold on_end, on_error, error, complete;
    (case_decide; [done|]); cbn -[_failAllPendingRequest];
    (split; [done|]); by apply _failAllPendingRequest_rejects with k.
Qed.

(** X4: on an instance whose counter is still exact, a request that has
    not been settled is never lost: its entry is in the table under its
    sequence number and its timer is armed.  So the reply to that number
    fulfils it, its timer rejects it with the timeout error, and, while the
    status is [OK], each of the four transitions rejects it with the status
    that transition sets as the reason and its error as the cause. *)
Theorem unsettled_request_is_tracked (tid : string) (options : option Options)
    (evs : list Event) (p : nat)
    (Hbound : (_seqId (run (new_GrpcClient tid options) evs) < MAX_EXACT)%N)
    (Hp : promises (run (new_GrpcClient tid options) evs) !! p = Some Pending) :
  let c := run (new_GrpcClient tid options) evs in
  _pendingCallbacks c !! N.of_nat (S p)
  = Some {| pc_promise := p; pc_timeoutId := p |}
  ∧ (∃ delay, timers c !! p
              = Some (Some {| t_seq := N.of_nat (S p); t_delay := delay |}))
  ∧ promises (step c (TimerFires p)) !! p = Some (Rejected (timeoutError c))
  ∧ (∀ m, getAck m = N.of_nat (S p) →
       promises (step c (StreamData m)) !! p
       = Some (Resolved {| sr_payload := getPayload m; sr_ack := getSeq m |}))
  ∧ (∀ t, _status c = OK →
       _status (transition t c) = reason_of t
       ∧ promises (transition t c) !! p
         = Some (Rejected (newSubRequestCancelError (traceId c) (reason_of t)
                             (Some (cause_of t)) None))).
Proof.
  intros c.
  pose proof (in_step_run _ evs (in_step_new tid options) Hbound) as Hin.
  fold c in Hin, Hp. destruct Hin as (_ & _ & _ & Harm & Htr).
  destruct (Htr p Hp) as (Hentry & [k delay] & Htm).
  pose proof (Harm _ _ Htm) as Hseq. cbn in Hseq. subst k.
  split_and!; [done|by exists delay| | |].
  - cbn [step]. unfold timer_fires. rewrite Htm. cbn.
    unfold _failPendingRequest. cbn. rewrite Hentry. cbn.
    by apply settle_pending.
  - intros m Hm. cbn [step]. rewrite _onServerMessage_reply by lia.
    unfold _completePendingRequest. rewrite Hm, Hentry. cbn.
    by apply settle_pending.
  - intros t Hok.
    by apply (transition_rejects t c (N.of_nat (S p))
                {| pc_promise := p; pc_timeoutId := p |}).
Qed.

Lemma unsettled_request_is_tracked_witness :
  let c := run (new_GrpcClient "abcd1234" None)
             [CallSend sample_payload false None;
              CallSend sample_payload false (Some 7%N);
              StreamData sample_reply] in
  _pendingCallbacks c !! N.of_nat (S 1)
  = Some {| pc_promise := 1; pc_timeoutId := 1 |}
  ∧ (∃ delay, timers c !! 1
              = Some (Some {| t_seq := N.of_nat (S 1); t_delay := delay |}))
  ∧ promises (step c (TimerFires 1)) !! 1 = Some (Rejected (timeoutError c))
  ∧ (∀ m, getAck m = N.of_nat (S 1) →
       promises (step c (StreamData m)) !! 1
       = Some (Resolved {| sr_payload := getPayload m; sr_ack := getSeq m |}))
  ∧ (∀ t, _status c = OK →
       _status (transition t c) = reason_of t
       ∧ promises (transition t c) !! 1
         = Some (Rejected (newSubRequestCancelError (traceId c) (reason_of t)
                             (Some (cause_of t)) None))).
Proof.
  apply (unsettled_request_is_tracked "abcd1234" None
           [CallSend sample_payload false None;
            CallSend sample_payload false (Some 7%N);
            StreamData sample_reply] 1);
    [vm_compute; reflexivity | reflexivity].
Defined.

Lemma step_leaves_pending c ev p :
  in_step c → promises c !! p = Some Pending → may_settle p ev = false →
  promises (step c ev) !! p = Some Pending.
Proof.
  intros (_ & _ & Hent & Harm & _) Hp Hev.
  assert (Hlt : p < length (promises c)) by (by eapply lookup_lt_Some).
  destruct ev as [req [] ack|e| |m| |e|t|i o]; cbn [step]; try done.
  - unfold _sendMessage, __sendMessage. by destruct (sendable (_status c)).
  - unfold _sendMessage, __sendMessage. cbn.
    destruct (sendable (_status c)); cbn.
    + by apply lookup_app_l_Some.
    + rewrite settle_other by lia. by apply lookup_app_l_Some.
  - cbn in Hev. unfold _onServerMessage. case_decide as Hack.
    + apply bool_decide_eq_false in Hev.
      unfold _completePendingRequest.
      destruct (_pendingCallbacks c !! getAck m) as [pc|] eqn:Hk; [|done].
      destruct (Hent _ _ Hk) as (_ & ->). cbn.
      rewrite settle_other by lia. done.
    + destruct (getPayload m) as [[]| | | |]; cbn -[error]; try done.
      unfold subReply, _sendMessage, __sendMessage.
      by destruct (sendable (_status c)).
  - cbn in Hev. apply bool_decide_eq_false in Hev.
    unfold timer_fires. destruct (timers c !! t) as [[tm|]|] eqn:Ht; try done.
    unfold _failPendingRequest. cbn.
    destruct (_pendingCallbacks c !! t_seq tm) as [pc|] eqn:Hk; [|done].
    destruct (Hent _ _ Hk) as (_ & ->). rewrite (Harm _ _ Ht). cbn.
    rewrite settle_other by lia. done.
  - destruct (forwarding c !! i) as [[r ack]|]; [|done].
    destruct o as [e|data]; [done|]. unfold forward_settled.
    destruct r as [| ? ? []| |]; try done;
      unfold subReply, _sendMessage, __sendMessage; cbn;
      by destruct (sendable (_status c)).
Qed.

Lemma run_leaves_pending c evs p :
  in_step c → (_seqId (run c evs) < MAX_EXACT)%N →
  promises c !! p = Some Pending →
  Forall (λ ev, may_settle p ev = false) evs →
  promises (run c evs) !! p = Some Pending.
Proof.
  revert c. induction evs as [|ev evs IH]; intros c Hin Hbound Hp Hall; [done|].
  change (run c (ev :: evs)) with (run (step c ev) evs) in *.
  apply Forall_cons in Hall as [Hev Hall].
  apply IH; [|done| |done].
  - apply in_step_step; [done|].
    pose proof (step_seqId_mono c ev).
    pose proof (run_seqId_mono (step c ev) evs). lia.
  - by apply step_leaves_pending.
Qed.

(** X5: a request waits for its own reply only.  Whatever else happens in
    between (other requests and sends, replies to other sequence numbers,
    other timers, new work from the server, forwards that succeed), a
    pending request stays pending, and the reply to its number then fulfils
    it with that reply's payload. *)
Theorem other_events_leave_request_pending (tid : string)
    (options : option Options) (evs evs' : list Event) (p : nat)
    (Hbound : (_seqId (run (new_GrpcClient tid options) (evs ++ evs'))
               < MAX_EXACT)%N)
    (Hp : promises (run (new_GrpcClient tid options) evs) !! p = Some Pending)
    (Hother : Forall (λ ev, may_settle p ev = false) evs') :
  promises (run (new_GrpcClient tid options) (evs ++ evs')) !! p = Some Pending
  ∧ ∀ m, getAck m = N.of_nat (S p) →
      promises (run (new_GrpcClient tid options) (evs ++ evs' ++ [StreamData m]))
        !! p
      = Some (Resolved {| sr_payload := getPayload m; sr_ack := getSeq m |}).
Proof.
  rewrite run_app in Hbound.
  assert (Hin : in_step (run (new_GrpcClient tid options) evs)).
  { apply in_step_run; [apply in_step_new|].
    pose proof (run_seqId_mono (run (new_GrpcClient tid options) evs) evs'). lia. }
  assert (Hpend : promises (run (new_GrpcClient tid options) (evs ++ evs')) !! p
                  = Some Pending).
  { rewrite run_app. by apply run_leaves_pending. }
  split; [done|]. intros m Hm.
  rewrite app_assoc, run_app.
  assert (Hin' : in_step (run (new_GrpcClient tid options) (evs ++ evs'))).
  { rewrite run_app. by apply in_step_run. }
  destruct Hin' as (_ & _ & _ & _ & Htr). destruct (Htr p Hpend) as (Hentry & _).
  cbn. rewrite _onServerMessage_reply by lia.
  unfold _completePendingRequest. rewrite Hm, Hentry. cbn.
  by apply settle_pending.
Qed.

Lemma other_events_leave_request_pending_witness :
  promises (run (new_GrpcClient "abcd1234" None)
              ([CallSend sample_payload false None;
                CallSend sample_payload false None]
               ++ [StreamData {| hdr_seq := None; hdr_ack := Some 2%N;
                                 msg_payload := sample_payload |};
                   TimerFires 1; StreamData sample_shortlink;
                   CallSend sample_payload false None])) !! 0
  = Some Pending
  ∧ ∀ m, getAck m = N.of_nat (S 0) →
      promises (run (new_GrpcClient "abcd1234" None)
                  ([CallSend sample_payload false None;
                    CallSend sample_payload false None]
                   ++ [StreamData {| hdr_seq := None; hdr_ack := Some 2%N;
                                     msg_payload := sample_payload |};
                       TimerFires 1; StreamData sample_shortlink;
                       CallSend sample_payload false None]
                   ++ [StreamData m])) !! 0
      = Some (Resolved {| sr_payload := getPayload m; sr_ack := getSeq m |}).
Proof.
  apply (other_events_leave_request_pending "abcd1234" None
           [CallSend sample_payload false None;
            CallSend sample_payload false None]
           [StreamData {| hdr_seq := None; hdr_ack := Some 2%N;
                          msg_payload := sample_payload |};
            TimerFires 1; StreamData sample_shortlink;
            CallSend sample_payload false None] 0).
  - vm_compute. reflexivity.
  - reflexivity.
  - repeat constructor.
Defined.

Lemma step_pending_origin c ev p :
  promises (step c ev) !! p = Some Pending →
  promises c !! p = Some Pending
  ∨ (sendable (_status c) = true ∧ p = length (promises c)).
Proof.
  assert (Hfail : ∀ st e c0, promises (_failAllPendingRequest st e c0) !! p
                             = Some Pending → promises c0 !! p = Some Pending).
  { intros st e c0. unfold _failAllPendingRequest. cbn.
    apply reject_all_settles_only. }
  assert (Htrans : ∀ t c0, promises (transition t c0) !! p = Some Pending →
                           promises c0 !! p = Some Pending).
  { intros t c0. destruct t; cbn; unfold on_end, on_error, error, complete;
      (case_decide; [done|]); cbn -[_failAllPendingRequest]; apply Hfail. }
  assert (Hreply : ∀ ack replay c0, promises (subReply ack replay c0) = promises c0).
  { intros ack replay c0. unfold subReply, _sendMessage, __sendMessage.
    by destruct (sendable (_status c0)). }
  destruct ev as [req [] ack|e| |m| |e|t|i o]; cbn [step].
  - unfold _sendMessage, __sendMessage.
    destruct (sendable (_status c)); cbn; by left.
  - unfold _sendMessage, __sendMessage. cbn.
    destruct (sendable (_status c)); cbn; intros Hp.
    + destruct (decide (p < length (promises c))) as [Hlt|Hge].
      * left. by rewrite lookup_app_l in Hp.
      * right. split; [done|]. apply lookup_lt_Some in Hp.
        rewrite length_app in Hp. cbn in Hp. lia.
    + apply settle_still_pending in Hp as [Hp Hne]; [|done]. left.
      destruct (decide (p < length (promises c))) as [Hlt|Hge].
      * by rewrite lookup_app_l in Hp.
      * apply lookup_lt_Some in Hp. rewrite length_app in Hp. cbn in Hp. lia.
  - intros Hp. left. by apply (Htrans (ByError e)).
  - intros Hp. left. by apply (Htrans ByComplete).
  - unfold _onServerMessage. case_decide.
    + unfold _completePendingRequest.
      destruct (_pendingCallbacks c !! getAck m) as [pc|]; cbn; [|by left].
      intros Hp. left. by apply settle_still_pending in Hp as [? _].
    + destruct (getPayload m) as [[]| | | |]; cbn -[error]; try (by left).
      * intros Hp. left. by apply (Htrans (ByError _)) in Hp.
      * rewrite Hreply. by left.
  - intros Hp. left. by apply (Htrans ByStreamEnd).
  - intros Hp. left. by apply (Htrans (ByStreamError e)).
  - unfold timer_fires. destruct (timers c !! t) as [[tm|]|]; try (by left).
    unfold _failPendingRequest. cbn.
    destruct (_pendingCallbacks c !! t_seq tm) as [pc|]; cbn; [|by left].
    intros Hp. left. by apply settle_still_pending in Hp as [? _].
  - destruct (forwarding c !! i) as [[r ack]|]; [|by left].
    unfold forward_settled. destruct o as [e|data].
    + intros Hp. left. by apply (Htrans (ByError _)) in Hp.
    + destruct r as [| ? ? []| |]; rewrite ?Hreply; by left.
Qed.

Lemma step_status_change c ev :
  _status (step c ev) ≠ _status c →
  ∃ t c0, step c ev = transition t c0
          ∧ _seqId c0 = _seqId c
          ∧ _pendingCallbacks c0 = _pendingCallbacks c
          ∧ promises c0 = promises c ∧ timers c0 = timers c
          ∧ _status c0 = _status c.
Proof.
  destruct ev as [req sendOnly ack|e| |m| |e|t|i o]; cbn [step]; intros Hne.
  - by rewrite _sendMessage_status in Hne.
  - by exists (ByError e), c.
  - by exists ByComplete, c.
  - revert Hne. unfold _onServerMessage. case_decide.
    + by rewrite _completePendingRequest_status.
    + destruct (getPayload m) as [[]| | | |]; cbn -[error];
        rewrite ?subReply_status; try done.
      intros _. by eexists (ByError _), c.
  - by exists ByStreamEnd, c.
  - by exists (ByStreamError e), c.
  - revert Hne. unfold timer_fires.
    destruct (timers c !! t) as [[tm|]|]; try done.
    by rewrite _failPendingRequest_status.
  - revert Hne. destruct (forwarding c !! i) as [[r ack]|]; [|done].
    unfold forward_settled. destruct o as [e|data].
    + intros _. by eexists (ByError _), (set_forwarding _ c).
    + destruct r as [| ? ? []| |]; rewrite ?subReply_status; done.
Qed.

Lemma step_nobody_waiting c ev :
  in_step c →
  (sendable (_status c) = false → ∀ p, promises c !! p ≠ Some Pending) →
  sendable (_status (step c ev)) = false →
  ∀ p, promises (step c ev) !! p ≠ Some Pending.
Proof.
  intros Hin Hnone Hclosed p Hp.
  destruct (decide (_status (step c ev) = _status c)) as [Heq|Hne].
  - rewrite Heq in Hclosed.
    apply step_pending_origin in Hp as [Hp|[Hs _]]; [|congruence].
    by apply (Hnone Hclosed p).
  - destruct (step_status_change c ev Hne) as (t & c0 & Hstep & ? & ? & ? & ? & Hst).
    rewrite Hstep in Hp, Hne.
    assert (Hok : _status c0 = OK).
    { destruct (decide (_status c0 = OK)) as [|Hoff]; [done|].
      rewrite transition_terminal in Hne by done. congruence. }
    refine (transition_settles_all t c0 p _ Hok Hp).
    by eapply in_step_fields.
Qed.

Lemma run_nobody_waiting c evs :
  in_step c → (_seqId (run c evs) < MAX_EXACT)%N →
  (sendable (_status c) = false → ∀ p, promises c !! p ≠ Some Pending) →
  sendable (_status (run c evs)) = false →
  ∀ p, promises (run c evs) !! p ≠ Some Pending.
Proof.
  revert c. induction evs as [|ev evs IH]; intros c Hin Hbound Hnone; [done|].
  change (run c (ev :: evs)) with (run (step c ev) evs) in *.
  assert (Hb : (_seqId c < MAX_EXACT)%N).
  { pose proof (step_seqId_mono c ev).
    pose proof (run_seqId_mono (step c ev) evs). lia. }
  apply IH; [by apply in_step_step|done|].
  by apply step_nobody_waiting.
Qed.

(** X6: once the status is [SERVER_ERROR], [CLIENT_ERROR] or
    [CLIENT_COMPLETE], no caller is left waiting: every promise the
    instance ever handed out is settled (counter still exact). *)
Theorem closed_channel_leaves_nobody_waiting (tid : string)
    (options : option Options) (evs : list Event) (p : nat) (s : PromiseState)
    (Hbound : (_seqId (run (new_GrpcClient tid options) evs) < MAX_EXACT)%N)
    (Hclosed : _status (run (new_GrpcClient tid options) evs) = SERVER_ERROR
               ∨ _status (run (new_GrpcClient tid options) evs) = CLIENT_ERROR
               ∨ _status (run (new_GrpcClient tid options) evs) = CLIENT_COMPLETE)
    (Hp : promises (run (new_GrpcClient tid options) evs) !! p = Some s) :
  (∃ w, s = Resolved w) ∨ (∃ e, s = Rejected e).
Proof.
  destruct s as [|w|e]; [exfalso|left; by exists w|right; by exists e].
  refine (run_nobody_waiting _ evs (in_step_new tid options) Hbound _ _ p Hp).
  - done.
  - by destruct Hclosed as [->|[->| ->]].
Qed.

Lemma closed_channel_leaves_nobody_waiting_witness :
  (∃ w, Rejected (newSubRequestCancelError "abcd1234" CLIENT_COMPLETE None
                    (Some "can not send message while stream status is not illegal"))
        = Resolved w)
  ∨ (∃ e, Rejected (newSubRequestCancelError "abcd1234" CLIENT_COMPLETE None
                      (Some "can not send message while stream status is not illegal"))
          = Rejected e).
Proof.
  apply (closed_channel_leaves_nobody_waiting "abcd1234" None
           [CallSend sample_payload false None; CallComplete;
            CallSend sample_payload false None] 1).
  - vm_compute. reflexivity.
  - right. right. reflexivity.
  - reflexivity.
Defined.

(** ** What the client does to its stream *)

Lemma step_calls c ev :
  (∃ t c0, step c ev = transition t c0
           ∧ cancelled c0 = cancelled c ∧ ended c0 = ended c
           ∧ written c0 = written c ∧ _status c0 = _status c)
  ∨ (_status (step c ev) = _status c
     ∧ cancelled (step c ev) = cancelled c
     ∧ ended (step c ev) = ended c).
Proof.
  assert (Hreply : ∀ ack replay c0,
    _status (subReply ack replay c0) = _status c0
    ∧ cancelled (subReply ack replay c0) = cancelled c0
    ∧ ended (subReply ack replay c0) = ended c0).
  { intros ack replay c0. unfold subReply, _sendMessage, __sendMessage.
    by destruct (sendable (_status c0)). }
  destruct ev as [req sendOnly ack|e| |m| |e|t|i o]; cbn [step].
  - right. unfold _sendMessage, __sendMessage.
    destruct sendOnly; cbn; by destruct (sendable (_status c)).
  - left. by exists (ByError e), c.
  - left. by exists ByComplete, c.
  - unfold _onServerMessage. case_decide.
    + right. unfold _completePendingRequest.
      by destruct (_pendingCallbacks c !! getAck m).
    + destruct (getPayload m) as [[]| | | |]; cbn -[error];
        try (by right); try (left; by eexists (ByError _), c).
  - left. by exists ByStreamEnd, c.
  - left. by exists (ByStreamError e), c.
  - right. unfold timer_fires. destruct (timers c !! t) as [[tm|]|]; try done.
    unfold _failPendingRequest. cbn.
    by destruct (_pendingCallbacks c !! t_seq tm).
  - destruct (forwarding c !! i) as [[r ack]|]; [|by right].
    unfold forward_settled. destruct o as [e|data].
    + left. by eexists (ByError _), (set_forwarding _ c).
    + right. destruct r as [| ? ? []| |]; try done;
        apply (Hreply _ _ (set_forwarding (delete i (forwarding c)) c)).
Qed.

Lemma transition_calls t c :
  _status c = OK →
  _status (transition t c) = reason_of t
  ∧ cancelled (transition t c)
    = (match t with ByError _ => S (cancelled c) | _ => cancelled c end)
  ∧ ended (transition t c)
    = (match t with ByComplete => S (ended c) | _ => ended c end)
  ∧ written (transition t c) = written c.
Proof.
  intros Hok.
  destruct t; cbn; unfold on_end, on_error, error, complete;
    (case_decide; [done|]); cbn -[_failAllPendingRequest];
    match goal with
    | |- context [_failAllPendingRequest ?st ?e c] =>
        destruct (_failAllPendingRequest_frame st e c)
          as (_&_&_&_&_&Hw&Hc&He&_)
    end; rewrite ?Hc, ?He, ?Hw; done.
Qed.

Lemma step_written_closed c ev :
  sendable (_status c) = false → written (step c ev) = written c.
Proof.
  intros Hclosed.
  assert (Hoff : _status c ≠ OK) by (intros Hok; by rewrite Hok in Hclosed).
  destruct ev as [req sendOnly ack|e| |m| |e|t|i o]; cbn [step].
  - unfold _sendMessage, __sendMessage. destruct sendOnly; cbn; by rewrite Hclosed.
  - by rewrite error_terminal.
  - by rewrite complete_terminal.
  - unfold _onServerMessage. case_decide.
    + unfold _completePendingRequest.
      by destruct (_pendingCallbacks c !! getAck m).
    + destruct (getPayload m) as [[]| | | |]; cbn -[error]; try done.
      * by rewrite error_terminal.
      * unfold subReply, _sendMessage, __sendMessage. by rewrite Hclosed.
  - by rewrite on_end_terminal.
  - by rewrite on_error_terminal.
  - unfold timer_fires. destruct (timers c !! t) as [[tm|]|]; try done.
    unfold _failPendingRequest. cbn.
    by destruct (_pendingCallbacks c !! t_seq tm).
  - destruct (forwarding c !! i) as [[r ack]|]; [|done].
    unfold forward_settled. destruct o as [e|data].
    + by rewrite error_terminal.
    + destruct r as [| ? ? []| |]; try done;
        unfold subReply, _sendMessage, __sendMessage; cbn; by rewrite Hclosed.
Qed.

Lemma run_written_closed c evs :
  sendable (_status c) = false → written (run c evs) = written c.
Proof.
  revert c. induction evs as [|ev evs IH]; intros c Hclosed; [done|].
  change (run c (ev :: evs)) with (run (step c ev) evs).
  assert (Hoff : _status c ≠ OK) by (intros Hok; by rewrite Hok in Hclosed).
  rewrite IH, step_written_closed; [done..|].
  by rewrite step_status_terminal.
Qed.

(** The stream calls an instance has made, by its status. *)
Lemma run_stream_calls c evs :
  cancelled c = (if decide (_status c = CLIENT_ERROR) then 1 else 0) →
  ended c = (if decide (_status c = CLIENT_COMPLETE) then 1 else 0) →
  cancelled (run c evs)
  = (if decide (_status (run c evs) = CLIENT_ERROR) then 1 else 0)
  ∧ ended (run c evs)
    = (if decide (_status (run c evs) = CLIENT_COMPLETE) then 1 else 0).
Proof.
  revert c. induction evs as [|ev evs IH]; intros c Hc He; [done|].
  change (run c (ev :: evs)) with (run (step c ev) evs).
  apply IH.
  - destruct (step_calls c ev) as [(t & c0 & -> & Hc0 & He0 & _ & Hst)|(-> & -> & _)];
      [|done].
    destruct (decide (_status c0 = OK)) as [Hok|Hoff].
    + destruct (transition_calls t c0 Hok) as (-> & -> & _).
      rewrite Hc0, Hc, <- Hst, Hok. by destruct t.
    + rewrite transition_terminal by done. by rewrite Hc0, Hst.
  - destruct (step_calls c ev) as [(t & c0 & -> & Hc0 & He0 & _ & Hst)|(-> & _ & ->)];
      [|done].
    destruct (decide (_status c0 = OK)) as [Hok|Hoff].
    + destruct (transition_calls t c0 Hok) as (-> & _ & -> & _).
      rewrite He0, He, <- Hst, Hok. by destruct t.
    + rewrite transition_terminal by done. by rewrite He0, Hst.
Qed.

(** X7: an instance cancels its stream exactly when it goes to
    [CLIENT_ERROR] and ends it exactly when it goes to [CLIENT_COMPLETE]:
    each at most once, never both, and neither when the server ended or
    failed the stream.  And once the status is [SERVER_ERROR],
    [CLIENT_ERROR] or [CLIENT_COMPLETE], nothing is written to the stream
    any more, whatever is called or received. *)
Theorem stream_is_closed_once (tid : string) (options : option Options)
    (evs evs' : list Event) :
  let c := run (new_GrpcClient tid options) evs in
  cancelled c = (if decide (_status c = CLIENT_ERROR) then 1 else 0)
  ∧ ended c = (if decide (_status c = CLIENT_COMPLETE) then 1 else 0)
  ∧ (cancelled c + ended c ≤ 1)%nat
  ∧ match _status c with
    | OK | SERVER_COMPLETE => True
    | SERVER_ERROR | CLIENT_ERROR | CLIENT_COMPLETE =>
        written (run c evs') = written c
    end.
Proof.
  intros c.
  destruct (run_stream_calls (new_GrpcClient tid options) evs) as (Hc & He);
    [done..|].
  fold c in Hc, He. split_and!; [done|done| |].
  - rewrite Hc, He. repeat case_decide; try lia. congruence.
  - destruct (_status c) eqn:Hst; try done; apply run_written_closed;
      by rewrite Hst.
Qed.

(** ** Sequence numbers on the wire *)

Lemma written_seqs_app c fs :
  omap hdr_seq (written c ++ fs) = written_seqs c ++ omap hdr_seq fs.
Proof. unfold written_seqs. apply omap_app. Qed.

Lemma step_written_seqs c ev :
  written_seqs (step c ev)
  = match ev with
    | CallSend _ false _ =>
        if sendable (_status c)
        then written_seqs c ++ [js_incr (_seqId c)] else written_seqs c
    | _ => written_seqs c
    end.
Proof.
  assert (Hreply : ∀ ack replay c0,
            written_seqs (subReply ack replay c0) = written_seqs c0).
  { intros ack replay c0. unfold subReply, _sendMessage, __sendMessage.
    destruct (sendable (_status c0)); [|done].
    unfold written_seqs at 1. cbn. rewrite written_seqs_app. cbn.
    apply app_nil_r. }
  assert (Htrans : ∀ t c0, written_seqs (transition t c0) = written_seqs c0).
  { intros t c0. unfold written_seqs.
    destruct (decide (_status c0 = OK)) as [Hok|Hoff].
    - by destruct (transition_calls t c0 Hok) as (_ & _ & _ & ->).
    - by rewrite transition_terminal. }
  destruct ev as [req [] ack|e| |m| |e|t|i o]; cbn [step].
  - unfold _sendMessage, __sendMessage.
    destruct (sendable (_status c)); [|done].
    unfold written_seqs at 1. cbn. rewrite written_seqs_app. cbn.
    apply app_nil_r.
  - unfold written_seqs at 1.
    destruct (_sendMessage_correlated req ack c) as (_ & _ & _ & _ & _ & ->).
    destruct (sendable (_status c)); [|done].
    by rewrite written_seqs_app.
  - apply (Htrans (ByError e)).
  - apply (Htrans ByComplete).
  - unfold _onServerMessage. case_decide.
    + unfold _completePendingRequest.
      by destruct (_pendingCallbacks c !! getAck m).
    + destruct (getPayload m) as [[]| | | |]; cbn -[error]; try done.
      * apply (Htrans (ByError _)).
      * apply Hreply.
  - apply (Htrans ByStreamEnd).
  - apply (Htrans (ByStreamError e)).
  - unfold timer_fires. destruct (timers c !! t) as [[tm|]|]; try done.
    unfold _failPendingRequest. cbn.
    by destruct (_pendingCallbacks c !! t_seq tm).
  - destruct (forwarding c !! i) as [[r ack]|]; [|done].
    unfold forward_settled. destruct o as [e|data].
    + apply (Htrans (ByError _) (set_forwarding _ c)).
    + destruct r as [| ? ? []| |]; try done;
        apply (Hreply _ _ (set_forwarding (delete i (forwarding c)) c)).
Qed.

Lemma run_written_seqs_sorted c evs :
  (_seqId (run c evs) < MAX_EXACT)%N →
  StronglySorted N.lt (written_seqs c) →
  Forall (λ s, (s ≤ _seqId c)%N) (written_seqs c) →
  StronglySorted N.lt (written_seqs (run c evs))
  ∧ Forall (λ s, (s ≤ _seqId (run c evs))%N) (written_seqs (run c evs)).
Proof.
  revert c. induction evs as [|ev evs IH]; intros c Hbound Hsorted Hle; [done|].
  change (run c (ev :: evs)) with (run (step c ev) evs) in *.
  assert (Hb : (_seqId c < MAX_EXACT)%N).
  { pose proof (step_seqId_mono c ev).
    pose proof (run_seqId_mono (step c ev) evs). lia. }
  apply IH; [done|..]; rewrite ?step_written_seqs, ?step_seqId;
    destruct ev as [req [] ack| | | | | | |]; try done;
    rewrite ?js_incr_exact by done.
  - destruct (sendable (_status c)); [|done].
    apply StronglySorted_app; split_and!; [|done|repeat constructor].
    intros x y Hx ->%list_elem_of_singleton.
    rewrite Forall_forall in Hle. specialize (Hle x Hx). cbn in Hle. lia.
  - assert (Hle' : Forall (λ s, (s ≤ _seqId c + 1)%N) (written_seqs c)).
    { eapply Forall_impl; [exact Hle|]. cbn. intros; lia. }
    destruct (sendable (_status c)); [|done].
    apply Forall_app. split; [done|]. by repeat constructor.
Qed.

(** X8: while the counter is exact, the sequence numbers of the frames an
    instance has written, read in the order of writing, are strictly
    increasing: none is written twice, and each lies between 1 and the
    counter. *)
Theorem written_seqs_increase (tid : string) (options : option Options)
    (evs : list Event)
    (Hbound : (_seqId (run (new_GrpcClient tid options) evs) < MAX_EXACT)%N) :
  let c := run (new_GrpcClient tid options) evs in
  StronglySorted N.lt (written_seqs c)
  ∧ NoDup (written_seqs c)
  ∧ Forall (λ s, (1 ≤ s ≤ _seqId c)%N) (written_seqs c).
Proof.
  intros c.
  destruct (run_written_seqs_sorted (new_GrpcClient tid options) evs Hbound)
    as (Hsorted & Hle); [constructor..|].
  fold c in Hsorted, Hle. split_and!; [done| |].
  - clear Hle. induction Hsorted as [|x l _ IH Hx]; constructor; [|done].
    intros Hin. rewrite Forall_forall in Hx. specialize (Hx x Hin). lia.
  - destruct (run_seqs_in_range tid options evs) as (_ & _ & Hfr). fold c in Hfr.
    apply Forall_forall. intros s Hs. unfold written_seqs in Hs.
    apply list_elem_of_omap in Hs as (m & Hm & Hseq). by apply (Hfr m).
Qed.

Lemma written_seqs_increase_witness :
  let c := run (new_GrpcClient "abcd1234" None)
             [CallSend sample_payload false None;
              CallSend sample_payload true (Some 3%N);
              StreamData sample_reply;
              CallSend sample_payload false (Some 4%N)] in
  StronglySorted N.lt (written_seqs c)
  ∧ NoDup (written_seqs c)
  ∧ Forall (λ s, (1 ≤ s ≤ _seqId c)%N) (written_seqs c).
Proof.
  apply (written_seqs_increase "abcd1234" None
           [CallSend sample_payload false None;
            CallSend sample_payload true (Some 3%N);
            StreamData sample_reply;
            CallSend sample_payload false (Some 4%N)]).
  vm_compute. reflexivity.
Defined.

(** ** New work from the server *)

(** X9: a system event (a frame without an ack whose payload is a system
    event request) is always handed to the system-event callback, whatever
    the status.  It is acknowledged by one frame whose [ack] is the frame's
    [seq], carrying an empty [SystemEventResponse] and no [seq], when the
    status is [OK] or [SERVER_COMPLETE]; otherwise nothing is written and
    the failed send ends as a rejection nobody handles.  In both cases the
    status, the table, the promises, the counter and the stream calls are
    untouched. *)
Theorem system_event_is_delivered (c : GrpcClient) (m : ActionMessage)
    (body : Bytes)
    (Hack : getAck m = 0%N)
    (Hcase : getPayload m = SYSTEMEVENTREQUEST body) :
  let c' := step c (StreamData m) in
  delivered c' = delivered c ++ [OnSystemEvent body]
  ∧ _status c' = _status c ∧ _seqId c' = _seqId c
  ∧ _pendingCallbacks c' = _pendingCallbacks c
  ∧ promises c' = promises c ∧ timers c' = timers c
  ∧ cancelled c' = cancelled c ∧ ended c' = ended c
  ∧ forwarding c' = forwarding c
  ∧ match _status c with
    | OK | SERVER_COMPLETE =>
        written c'
        = written c ++ [{| hdr_seq := None; hdr_ack := Some (getSeq m);
                           msg_payload := SYSTEMEVENTRESPONSE |}]
        ∧ unhandled c' = unhandled c
    | SERVER_ERROR | CLIENT_ERROR | CLIENT_COMPLETE =>
        written c' = written c
        ∧ unhandled c'
          = unhandled c
            ++ [newSubRequestCancelError (traceId c) (_status c) None
                  (Some "can not send message while stream status is not illegal")]
    end.
Proof.
  cbn zeta. cbn [step]. unfold _onServerMessage. rewrite Hack, Hcase.
  case_decide; [done|].
  unfold subReply, _sendMessage, __sendMessage.
  destruct (_status c) eqn:Hst; cbn; rewrite ?Hst; done.
Qed.

Lemma system_event_is_delivered_witness :
  let c := sample_server_complete in
  let m := {| hdr_seq := Some 9%N; hdr_ack := None;
              msg_payload := SYSTEMEVENTREQUEST [] |} in
  let c' := step c (StreamData m) in
  delivered c' = delivered c ++ [OnSystemEvent []]
  ∧ _status c' = _status c ∧ _seqId c' = _seqId c
  ∧ _pendingCallbacks c' = _pendingCallbacks c
  ∧ promises c' = promises c ∧ timers c' = timers c
  ∧ cancelled c' = cancelled c ∧ ended c' = ended c
  ∧ forwarding c' = forwarding c
  ∧ match _status c with
    | OK | SERVER_COMPLETE =>
        written c'
        = written c ++ [{| hdr_seq := None; hdr_ack := Some (getSeq m);
                           msg_payload := SYSTEMEVENTRESPONSE |}]
        ∧ unhandled c' = unhandled c
    | SERVER_ERROR | CLIENT_ERROR | CLIENT_COMPLETE =>
        written c' = written c
        ∧ unhandled c'
          = unhandled c
            ++ [newSubRequestCancelError (traceId c) (_status c) None
                  (Some "can not send message while stream status is not illegal")]
    end.
Proof.
  apply (system_event_is_delivered sample_server_complete
           {| hdr_seq := Some 9%N; hdr_ack := None;
              msg_payload := SYSTEMEVENTREQUEST [] |} []); reflexivity.
Defined.



(** ** A request on a closed channel *)

(** X11: a correlated request made while the status forbids sending still
    takes the next sequence number, arms its timer and registers its entry
    before the send throws; the promise is rejected at once with the
    [SubRequestCancelError] of the send and nothing is written, but the
    entry and the armed timer are left behind.  No teardown removes them,
    the status being already off [OK]; it is the timer that, when it fires,
    deletes the entry, and the promise keeps the rejection it has. *)
Theorem closed_channel_request_leaves_entry (req : Payload) (ack : option N)
    (c : GrpcClient) (Hclosed : sendable (_status c) = false) :
  let r := (_sendMessage req false ack c).1 in
  let k := js_incr (_seqId c) in
  let p := length (promises c) in
  let t := length (timers c) in
  let e := newSubRequestCancelError (traceId c) (_status c) None
             (Some "can not send message while stream status is not illegal") in
  (_sendMessage req false ack c).2 = Awaiting p
  ∧ promises r !! p = Some (Rejected e)
  ∧ written r = written c
  ∧ _seqId r = k
  ∧ _pendingCallbacks r !! k = Some {| pc_promise := p; pc_timeoutId := t |}
  ∧ timers r !! t = Some (Some {| t_seq := k; t_delay := _requestTimeout c |})
  ∧ (∀ tr, transition tr r = r)
  ∧ _pendingCallbacks (timer_fires t r) !! k = None
  ∧ promises (timer_fires t r) !! p = Some (Rejected e)
  ∧ timers (timer_fires t r) !! t = Some None.
Proof.
  assert (Hnew : ∀ A (l : list A) x, (l ++ [x]) !! length l = Some x).
  { intros A l x. by rewrite lookup_app_r, Nat.sub_diag by lia. }
  assert (Hnok : _status c ≠ OK).
  { intros Hok. rewrite Hok in Hclosed. done. }
  intros r k p t e.
  assert (Hr : r = set_promises
                     (settle p (Rejected e) (promises c ++ [Pending]))
                     (set_pending
                        (<[k := {| pc_promise := p; pc_timeoutId := t |}]>
                           (_pendingCallbacks c))
                        (set_timers
                           (timers c ++ [Some {| t_seq := k;
                                                 t_delay := _requestTimeout c |}])
                           (set_promises (promises c ++ [Pending])
                              (set_seqId k c))))).
  { unfold r, _sendMessage, __sendMessage. cbn. by rewrite Hclosed. }
  assert (Hrej : promises r !! p = Some (Rejected e)).
  { rewrite Hr. cbn. apply settle_pending, Hnew. }
  assert (Htm : timers r !! t
                = Some (Some {| t_seq := k; t_delay := _requestTimeout c |})).
  { rewrite Hr. cbn. apply Hnew. }
  assert (Hentry : _pendingCallbacks r !! k
                   = Some {| pc_promise := p; pc_timeoutId := t |}).
  { rewrite Hr. cbn. apply lookup_insert_eq. }
  split_and!; try done.
  - unfold _sendMessage, __sendMessage. cbn. by rewrite Hclosed.
  - by rewrite Hr.
  - by rewrite Hr.
  - intros tr. apply transition_terminal. by rewrite Hr.
  - unfold timer_fires. rewrite Htm. cbn. unfold _failPendingRequest. cbn.
    rewrite Hentry. cbn. apply lookup_delete_eq.
  - unfold timer_fires. rewrite Htm. cbn. unfold _failPendingRequest. cbn.
    rewrite Hentry. cbn. apply settle_keeps with (s := Rejected e); done.
  - unfold timer_fires. rewrite Htm. cbn. unfold _failPendingRequest. cbn.
    rewrite Hentry. cbn. rewrite list_insert_insert_eq.
    apply list_lookup_insert_eq. by eapply lookup_lt_Some.
Qed.

Lemma closed_channel_request_leaves_entry_witness :
  let c := complete (new_GrpcClient "abcd1234" None) in
  let r := (_sendMessage sample_payload false None c).1 in
  let k := js_incr (_seqId c) in
  let p := length (promises c) in
  let t := length (timers c) in
  let e := newSubRequestCancelError (traceId c) (_status c) None
             (Some "can not send message while stream status is not illegal") in
  (_sendMessage sample_payload false None c).2 = Awaiting p
  ∧ promises r !! p = Some (Rejected e)
  ∧ written r = written c
  ∧ _seqId r = k
  ∧ _pendingCallbacks r !! k = Some {| pc_promise := p; pc_timeoutId := t |}
  ∧ timers r !! t = Some (Some {| t_seq := k; t_delay := _requestTimeout c |})
  ∧ (∀ tr, transition tr r = r)
  ∧ _pendingCallbacks (timer_fires t r) !! k = None
  ∧ promises (timer_fires t r) !! p = Some (Rejected e)
  ∧ timers (timer_fires t r) !! t = Some None.
Proof.
  apply (closed_channel_request_leaves_entry sample_payload None
           (complete (new_GrpcClient "abcd1234" None))).
  vm_compute. reflexivity.
Defined.

End GrpcClientFacts.

(* ===================================================================== *)
(** * Properties of utils/FileUtils.ts *)
(* ===================================================================== *)

Module FileUtilsFacts.
Import FileUtils.

Section Upload.
Context `{crypto : Crypto} `{media : Media}.

(** C7: with a key passed in, [encryptUploadData] reads and draws nothing
    from the random source, so its result is a function of the data and the
    key; the ciphertext is [AesEcbEncrypt] of the data under that key (the
    cipher takes no initialisation vector); the two metadata records hold
    the length, the [adler32] checksum with seed 0 and the [md5] of the
    plaintext and of the ciphertext, and the key.  With no key passed in,
    one key is drawn and everything is as if that key had been passed.
    Given that the cipher's decryption undoes its encryption, decrypting the
    returned ciphertext under the returned key gives the plaintext back. *)
Theorem encryptUploadData_spec (plainData key : Bytes) (g g' : Entropy)
    (decrypt_encrypt :
       ∀ key data, AesEcbDecrypt key (AesEcbEncrypt key data) = data) :
  let r := (encryptUploadData plainData (Some key) g).1 in
  encryptUploadData plainData (Some key) g = (r, g)
  ∧ (encryptUploadData plainData (Some key) g').1 = r
  ∧ encryptedData r = AesEcbEncrypt key plainData
  ∧ plainDataMeta r
    = {| dm_size := N.of_nat (length plainData);
         dm_checksum := adler32 plainData 0;
         dm_md5 := md5 plainData |}
  ∧ encryptedDataMeta r
    = {| em_aeskey := key;
         em_size := N.of_nat (length (encryptedData r));
         em_checksum := adler32 (encryptedData r) 0;
         em_md5 := md5 (encryptedData r) |}
  ∧ AesEcbDecrypt key (encryptedData r) = plainData
  ∧ encryptUploadData plainData None g
    = encryptUploadData plainData (Some (AesGenKey g).1) (AesGenKey g).2
  ∧ AesEcbDecrypt
      (em_aeskey (encryptedDataMeta (encryptUploadData plainData None g).1))
      (encryptedData (encryptUploadData plainData None g).1)
    = plainData.
Proof.
  unfold encryptUploadData. cbn.
  split_and!; try done; destruct (AesGenKey g) as [k g0]; cbn;
    [done | apply decrypt_encrypt].
Qed.



(** C8, as the code has it: when [prepareImageUpload] with [useThumb] set
    returns, the returned key is the one drawn for the full image, both
    metadata records carry it, the thumbnail was encrypted under it, and
    the data map holds the thumbnail's ciphertext under the [md5] of that
    ciphertext and the full image's ciphertext under the [md5] of its own:
    two entries when the two hashes differ, and a single one (holding the
    thumbnail's ciphertext) when they are equal.  It fails exactly when a
    media probe fails. *)
Theorem prepareImageUpload_with_thumb (imageData : Bytes) (g : Entropy) :
  let key := (AesGenKey g).1 in
  let encImage := AesEcbEncrypt key imageData in
  match prepareImageUpload imageData true g with
  | Some (r, g') =>
      ∃ thumb tm,
        createImageThumb imageData 120 = Some thumb
        ∧ let encThumb := AesEcbEncrypt key thumb in
          aesKey r = key
          ∧ g' = (AesGenKey g).2
          ∧ dataBag r = <[md5 encThumb := encThumb]> {[md5 encImage := encImage]}
          ∧ dataBag r !! md5 encThumb = Some encThumb
          ∧ dataBag r !! md5 encImage
            = Some (if decide (md5 encImage = md5 encThumb)
                    then encThumb else encImage)
          ∧ size (dataBag r)
            = (if decide (md5 encImage = md5 encThumb) then 1 else 2)
          ∧ thumbimagemeta (params r) = Some tm
          ∧ em_aeskey (im_encrypteddatameta (imagemeta (params r))) = key
          ∧ em_md5 (im_encrypteddatameta (imagemeta (params r))) = md5 encImage
          ∧ em_aeskey (im_encrypteddatameta tm) = key
          ∧ em_md5 (im_encrypteddatameta tm) = md5 encThumb
  | None =>
      getImageSize imageData = None
      ∨ createImageThumb imageData 120 = None
      ∨ ∃ thumb, createImageThumb imageData 120 = Some thumb
                 ∧ getImageSize thumb = None
  end.
Proof.
  unfold prepareImageUpload, generateUploadImageMeta, encryptUploadData.
  destruct (AesGenKey g) as [key g0]. cbn.
  destruct (getImageSize imageData) as [sz|]; cbn; [|by left].
  destruct (createImageThumb imageData 120) as [thumb|]; cbn; [|by right; left].
  destruct (getImageSize thumb) as [sz'|] eqn:Hsz'; cbn;
    [|right; right; by exists thumb].
  eexists thumb, _. split_and!; try done.
  - apply lookup_insert_eq.
  - case_decide as Heq.
    + rewrite Heq. apply lookup_insert_eq.
    + rewrite lookup_insert_ne by done. apply lookup_insert_eq.
  - case_decide as Heq.
    + rewrite Heq, insert_insert_eq.
      by rewrite map_size_insert_None, map_size_empty by apply lookup_empty.
    + rewrite map_size_insert_None.
      * by rewrite map_size_insert_None, map_size_empty by apply lookup_empty.
      * rewrite lookup_insert_ne by done. apply lookup_empty.
Qed.

End Upload.

Lemma encryptUploadData_spec_witness :
  let r := (@encryptUploadData sample_crypto sample_image (Some sample_key) []).1 in
  @encryptUploadData sample_crypto sample_image (Some sample_key) [] = (r, [])
  ∧ (@encryptUploadData sample_crypto sample_image (Some sample_key)
       [sample_image]).1 = r
  ∧ encryptedData r = @AesEcbEncrypt sample_crypto sample_key sample_image
  ∧ plainDataMeta r
    = {| dm_size := N.of_nat (length sample_image);
         dm_checksum := @adler32 sample_crypto sample_image 0;
         dm_md5 := @md5 sample_crypto sample_image |}
  ∧ encryptedDataMeta r
    = {| em_aeskey := sample_key;
         em_size := N.of_nat (length (encryptedData r));
         em_checksum := @adler32 sample_crypto (encryptedData r) 0;
         em_md5 := @md5 sample_crypto (encryptedData r) |}
  ∧ @AesEcbDecrypt sample_crypto sample_key (encryptedData r) = sample_image
  ∧ @encryptUploadData sample_crypto sample_image None []
    = @encryptUploadData sample_crypto sample_image
        (Some (@AesGenKey sample_crypto []).1) (@AesGenKey sample_crypto []).2
  ∧ @AesEcbDecrypt sample_crypto
      (em_aeskey (encryptedDataMeta
                    (@encryptUploadData sample_crypto sample_image None []).1))
      (encryptedData (@encryptUploadData sample_crypto sample_image None []).1)
    = sample_image.
Proof.
  apply (@encryptUploadData_spec sample_crypto sample_image sample_key
           [] [sample_image]).
  intros key data. cbn. apply drop_app_length.
Defined.

(** C8 as stated fails when the two ciphertexts have the same hash, as they
    do when the thumbnailer hands the image back unchanged: the map then
    has one entry. *)
Lemma image_upload_single_entry :
  (size ∘ dataBag ∘ fst)
    <$> @prepareImageUpload sample_crypto sample_media_small
          sample_image true [sample_key]
  = Some 1.
Proof. vm_compute. done. Qed.

Example image_upload_two_entries :
  (size ∘ dataBag ∘ fst)
    <$> @prepareImageUpload sample_crypto sample_media
          sample_image true [sample_key]
  = Some 2.
Proof. vm_compute. done. Qed.

Section Download.
Context `{crypto : Crypto} `{unpacker : Unpacker}.

Lemma SocketClient_receive_silent chunks u b rest :
  silent (fu_buffering u) chunks = Some b →
  SocketClient_receive onReceive (u, None) (chunks ++ rest)
  = SocketClient_receive onReceive
      ({| fu_aeskey := fu_aeskey u; fu_buffering := b |}, None) rest.
Proof.
  revert u. induction chunks as [|data chunks IH]; intros u Hs; cbn in *.
  { destruct u. cbn in *. congruence. }
  unfold onReceive at 1. cbn.
  destruct (unpacker_update (fu_buffering u) data) as [b1 [|response more]];
    [|done].
  by rewrite IH.
Qed.

(** C9: [downloadFile] resets the decoder on connect and feeds it every
    inbound chunk in turn.  When the chunks [quiet] complete no frame and
    the next chunk [data] completes at least one, the download is decided by
    the first frame of [data], whatever follows: a non-zero result code
    fails it with that code, and a zero one returns the frame's [filedata]
    field decrypted with the key of the request.  When no chunk completes a
    frame before the peer closes, it fails for want of a response; a
    connection that fails fails it too. *)
Theorem downloadFile_first_frame (req : FileDownloadRequest)
    (quiet : list Bytes) (data : Bytes) (rest : list Bytes)
    (b b' : Buffering) (response : FileResponse) (more : list FileResponse)
    (Hquiet : silent (unpacker_reset empty_buffering) quiet = Some b)
    (Hdata : unpacker_update b data = (b', response :: more)) :
  let retCode := unpackInteger (body response "retcode") in
  downloadFile req (Receives (quiet ++ data :: rest))
  = (if decide (retCode = 0%Z)
     then inr (AesEcbDecrypt (dl_unpackaeskey req) (body response "filedata"))
     else inl (RetCode retCode))
  ∧ downloadFile req (Receives quiet) = inl NullResponse
  ∧ (∀ reason, downloadFile req (ConnectFails reason) = inl (SocketFailed reason)).
Proof.
  cbn zeta. unfold downloadFile, SocketClient_send. split_and!; [| |done].
  - unfold onConnect at 1. cbn [fst snd].
    erewrite SocketClient_receive_silent by exact Hquiet.
    cbn. unfold onReceive at 1. cbn. rewrite Hdata.
    unfold getDecryptedFileData. cbn.
    repeat case_decide; done.
  - unfold onConnect at 1. cbn [fst snd].
    rewrite <- (app_nil_r quiet).
    erewrite SocketClient_receive_silent by exact Hquiet. done.
Qed.

End Download.

Lemma downloadFile_first_frame_witness :
  let response := [x00; "k"; "e"; "y"; "h"; "i"]%byte in
  let retCode := @unpackInteger sample_unpacker
                   (@body sample_unpacker response "retcode") in
  @downloadFile sample_crypto sample_unpacker sample_download
    (Receives ([[x00; "k"; "e"]%byte] ++ ["y"; "h"; "i"]%byte :: [[x01]%byte]))
  = (if decide (retCode = 0%Z)
     then inr (@AesEcbDecrypt sample_crypto (dl_unpackaeskey sample_download)
                 (@body sample_unpacker response "filedata"))
     else inl (RetCode retCode))
  ∧ @downloadFile sample_crypto sample_unpacker sample_download
      (Receives [[x00; "k"; "e"]%byte]) = inl NullResponse
  ∧ (∀ reason,
       @downloadFile sample_crypto sample_unpacker sample_download
         (ConnectFails reason) = inl (SocketFailed reason)).
Proof.
  apply (@downloadFile_first_frame sample_crypto sample_unpacker
           sample_download [[x00; "k"; "e"]%byte] ["y"; "h"; "i"]%byte
           [[x01]%byte] [x00; "k"; "e"]%byte []
           [x00; "k"; "e"; "y"; "h"; "i"]%byte []); reflexivity.
Defined.

Example downloadFile_two_chunks :
  @downloadFile sample_crypto sample_unpacker sample_download
    (Receives [[x00; "k"; "e"]%byte; ["y"; "h"; "i"]%byte])
  = inr ["h"; "i"]%byte.
Proof. reflexivity. Qed.

Section MoreUpload.
Context `{crypto : Crypto} `{media : Media} `{video : VideoMedia}.

(** X12: [prepareFileUpload] always returns, having drawn exactly one key,
    which is the key it hands back and the key of the metadata.  Its data
    map has a single entry, the file's ciphertext under that key, filed
    under the digest the metadata announces, which is the [md5] of the
    ciphertext; the announced sizes and digests are those of the plaintext
    and of the ciphertext.  Given that the cipher's decryption undoes its
    encryption, the entry decrypts under the returned key to the file. *)
Theorem prepareFileUpload_round_trip (fileData : Bytes) (g : Entropy)
    (decrypt_encrypt :
       ∀ key data, AesEcbDecrypt key (AesEcbEncrypt key data) = data) :
  let r := (prepareFileUpload fileData g).1 in
  let meta := fp_encrypteddatameta (f_params r) in
  (prepareFileUpload fileData g).2 = (AesGenKey g).2
  ∧ f_aesKey r = (AesGenKey g).1
  ∧ em_aeskey meta = f_aesKey r
  ∧ size (f_dataBag r) = 1
  ∧ fp_plaindatameta (f_params r)
    = {| dm_size := N.of_nat (length fileData);
         dm_checksum := adler32 fileData 0;
         dm_md5 := md5 fileData |}
  ∧ ∃ enc,
      f_dataBag r = {[ em_md5 meta := enc ]}
      ∧ f_dataBag r !! em_md5 meta = Some enc
      ∧ em_md5 meta = md5 enc
      ∧ em_size meta = N.of_nat (length enc)
      ∧ em_checksum meta = adler32 enc 0
      ∧ AesEcbDecrypt (f_aesKey r) enc = fileData.
Proof.
  unfold prepareFileUpload, generateUploadFileMeta, encryptUploadData.
  destruct (AesGenKey g) as [key g0]. cbn.
  split_and!; try done.
  - by rewrite map_size_insert_None, map_size_empty by apply lookup_empty.
  - eexists.
    split_and!; first [done | apply lookup_insert_eq | apply decrypt_encrypt].
Qed.

(** X13: [prepareVideoUpload] draws one key, for the video, and encrypts
    the frame taken at bound 360 under that same key, which is the key it
    returns.  The data map holds the frame's ciphertext under the [md5] of
    that ciphertext and the video's ciphertext under the [md5] of its own:
    two entries when the hashes differ, one (the frame's) when they are
    equal.  It fails exactly when the duration probe fails, or no frame can
    be taken, or the frame's size cannot be read. *)
Theorem prepareVideoUpload_spec (videoData : Bytes) (g : Entropy) :
  let key := (AesGenKey g).1 in
  let encVideo := AesEcbEncrypt key videoData in
  match prepareVideoUpload videoData g with
  | Some (r, g') =>
      ∃ duration thumb size_,
        getVideoDurationSeconds videoData = Some duration
        ∧ createVideoThumb videoData 360 = Some thumb
        ∧ getImageSize thumb = Some size_
        ∧ let encThumb := AesEcbEncrypt key thumb in
          let vmeta := vp_videometa (v_params r) in
          let tmeta := vp_thumbimagemeta (v_params r) in
          v_aesKey r = key
          ∧ g' = (AesGenKey g).2
          ∧ v_dataBag r
            = <[md5 encThumb := encThumb]> {[md5 encVideo := encVideo]}
          ∧ v_dataBag r !! md5 encThumb = Some encThumb
          ∧ v_dataBag r !! md5 encVideo
            = Some (if decide (md5 encVideo = md5 encThumb)
                    then encThumb else encVideo)
          ∧ size (v_dataBag r)
            = (if decide (md5 encVideo = md5 encThumb) then 1 else 2)
          ∧ vm_duration vmeta = duration
          ∧ dm_md5 (vm_plaindatameta vmeta) = md5 videoData
          ∧ em_aeskey (vm_encrypteddatameta vmeta) = key
          ∧ em_md5 (vm_encrypteddatameta vmeta) = md5 encVideo
          ∧ dm_md5 (im_plaindatameta tmeta) = md5 thumb
          ∧ em_aeskey (im_encrypteddatameta tmeta) = key
          ∧ em_md5 (im_encrypteddatameta tmeta) = md5 encThumb
          ∧ (im_width tmeta, im_height tmeta) = size_
  | None =>
      getVideoDurationSeconds videoData = None
      ∨ createVideoThumb videoData 360 = None
      ∨ ∃ thumb, createVideoThumb videoData 360 = Some thumb
                 ∧ getImageSize thumb = None
  end.
Proof.
  unfold prepareVideoUpload, generateUploadVideoMeta, generateUploadImageMeta,
    encryptUploadData.
  destruct (AesGenKey g) as [key g0]. cbn.
  destruct (getVideoDurationSeconds videoData) as [duration|]; cbn;
    [|by left].
  destruct (createVideoThumb videoData 360) as [thumb|]; cbn;
    [|by right; left].
  destruct (getImageSize thumb) as [[w h]|] eqn:Hsz; cbn;
    [|right; right; by exists thumb].
  exists duration, thumb, (w, h). split_and!; try done.
  - apply lookup_insert_eq.
  - case_decide as Heq.
    + rewrite Heq. apply lookup_insert_eq.
    + rewrite lookup_insert_ne by done. apply lookup_insert_eq.
  - case_decide as Heq.
    + rewrite Heq, insert_insert_eq.
      by rewrite map_size_insert_None, map_size_empty by apply lookup_empty.
    + rewrite map_size_insert_None.
      * by rewrite map_size_insert_None, map_size_empty by apply lookup_empty.
      * rewrite lookup_insert_ne by done. apply lookup_empty.
Qed.

(** X14: with [useThumb] unset, [prepareImageUpload] does not consult the
    thumbnailer: its result is the same whatever [createImageThumb] is.  It
    fails only when the image's size cannot be read; otherwise it returns
    no thumbnail metadata, the key drawn for the image, and a data map
    whose only entry is the image's ciphertext under the [md5] of that
    ciphertext. *)
Theorem prepareImageUpload_without_thumb (imageData : Bytes) (g : Entropy) :
  (∀ thumbnailer : Bytes → N → option Bytes,
     @prepareImageUpload crypto
       {| getImageSize := getImageSize; createImageThumb := thumbnailer |}
       imageData false g
     = prepareImageUpload imageData false g)
  ∧ let key := (AesGenKey g).1 in
    let encImage := AesEcbEncrypt key imageData in
    match prepareImageUpload imageData false g with
    | Some (r, g') =>
        getImageSize imageData
        = Some (im_width (imagemeta (params r)),
                im_height (imagemeta (params r)))
        ∧ thumbimagemeta (params r) = None
        ∧ aesKey r = key
        ∧ g' = (AesGenKey g).2
        ∧ dataBag r = {[md5 encImage := encImage]}
        ∧ size (dataBag r) = 1
        ∧ em_aeskey (im_encrypteddatameta (imagemeta (params r))) = key
        ∧ em_md5 (im_encrypteddatameta (imagemeta (params r))) = md5 encImage
    | None => getImageSize imageData = None
    end.
Proof.
  split; [done|].
  unfold prepareImageUpload, generateUploadImageMeta, encryptUploadData.
  destruct (AesGenKey g) as [key g0]. cbn.
  destruct (getImageSize imageData) as [[w h]|]; cbn; [|done].
  split_and!; try done.
  by rewrite map_size_insert_None, map_size_empty by apply lookup_empty.
Qed.

(** X15: every entry of the data map returned by [prepareImageUpload] is
    filed under the [md5] of its own bytes, and, given that the cipher's
    decryption undoes its encryption, decrypts under the returned key to
    the image or, when a thumbnail was asked for, to the thumbnail made at
    bound 120.  Nothing else is ever put in the map. *)
Theorem image_bag_entries_decrypt (imageData : Bytes) (useThumb : bool)
    (g g' : Entropy) (r : PreparedImageUpload) (h : string) (d : Bytes)
    (decrypt_encrypt :
       ∀ key data, AesEcbDecrypt key (AesEcbEncrypt key data) = data)
    (Hreturns : prepareImageUpload imageData useThumb g = Some (r, g'))
    (Hentry : dataBag r !! h = Some d) :
  h = md5 d
  ∧ (AesEcbDecrypt (aesKey r) d = imageData
     ∨ useThumb = true
       ∧ createImageThumb imageData 120 = Some (AesEcbDecrypt (aesKey r) d)).
Proof.
  revert Hreturns.
  unfold prepareImageUpload, generateUploadImageMeta, encryptUploadData.
  destruct (AesGenKey g) as [key g0]. cbn.
  destruct (getImageSize imageData) as [sz|]; cbn; [|done].
  destruct useThumb.
  - destruct (createImageThumb imageData 120) as [thumb|]; cbn; [|done].
    destruct (getImageSize thumb) as [sz'|]; cbn; [|done].
    intros [= <- <-]. cbn in Hentry |- *.
    apply lookup_insert_Some in Hentry as [[<- <-]|[_ Hentry]].
    + split; [done|]. right. by rewrite decrypt_encrypt.
    + apply lookup_insert_Some in Hentry as [[<- <-]|[_ Hentry]].
      * split; [done|]. left. apply decrypt_encrypt.
      * by rewrite lookup_empty in Hentry.
  - intros [= <- <-]. cbn in Hentry |- *.
    apply lookup_insert_Some in Hentry as [[<- <-]|[_ Hentry]].
    + split; [done|]. left. apply decrypt_encrypt.
    + by rewrite lookup_empty in Hentry.
Qed.

(** X16: every entry of the data map returned by [prepareVideoUpload] is
    filed under the [md5] of its own bytes, and, given that the cipher's
    decryption undoes its encryption, decrypts under the returned key to
    the video or to the frame taken at bound 360. *)
Theorem video_bag_entries_decrypt (videoData : Bytes)
    (g g' : Entropy) (r : PreparedVideoUpload) (h : string) (d : Bytes)
    (decrypt_encrypt :
       ∀ key data, AesEcbDecrypt key (AesEcbEncrypt key data) = data)
    (Hreturns : prepareVideoUpload videoData g = Some (r, g'))
    (Hentry : v_dataBag r !! h = Some d) :
  h = md5 d
  ∧ (AesEcbDecrypt (v_aesKey r) d = videoData
     ∨ createVideoThumb videoData 360 = Some (AesEcbDecrypt (v_aesKey r) d)).
Proof.
  revert Hreturns.
  unfold prepareVideoUpload, generateUploadVideoMeta, generateUploadImageMeta,
    encryptUploadData.
  destruct (AesGenKey g) as [key g0]. cbn.
  destruct (getVideoDurationSeconds videoData) as [duration|]; cbn; [|done].
  destruct (createVideoThumb videoData 360) as [thumb|]; cbn; [|done].
  destruct (getImageSize thumb) as [sz'|]; cbn; [|done].
  intros [= <- <-]. cbn in Hentry |- *.
  apply lookup_insert_Some in Hentry as [[<- <-]|[_ Hentry]].
  - split; [done|]. right. by rewrite decrypt_encrypt.
  - apply lookup_insert_Some in Hentry as [[<- <-]|[_ Hentry]].
    + split; [done|]. left. apply decrypt_encrypt.
    + by rewrite lookup_empty in Hentry.
Qed.

End MoreUpload.

Lemma prepareFileUpload_round_trip_witness :
  let r := (@prepareFileUpload sample_crypto sample_image [sample_key]).1 in
  let meta := fp_encrypteddatameta (f_params r) in
  (@prepareFileUpload sample_crypto sample_image [sample_key]).2
  = (@AesGenKey sample_crypto [sample_key]).2
  ∧ f_aesKey r = (@AesGenKey sample_crypto [sample_key]).1
  ∧ em_aeskey meta = f_aesKey r
  ∧ size (f_dataBag r) = 1
  ∧ fp_plaindatameta (f_params r)
    = {| dm_size := N.of_nat (length sample_image);
         dm_checksum := @adler32 sample_crypto sample_image 0;
         dm_md5 := @md5 sample_crypto sample_image |}
  ∧ ∃ enc,
      f_dataBag r = {[ em_md5 meta := enc ]}
      ∧ f_dataBag r !! em_md5 meta = Some enc
      ∧ em_md5 meta = @md5 sample_crypto enc
      ∧ em_size meta = N.of_nat (length enc)
      ∧ em_checksum meta = @adler32 sample_crypto enc 0
      ∧ @AesEcbDecrypt sample_crypto (f_aesKey r) enc = sample_image.
Proof.
  apply (@prepareFileUpload_round_trip sample_crypto sample_image [sample_key]).
  intros key data. cbn. apply drop_app_length.
Defined.

Lemma image_bag_entries_decrypt_witness :
  ∃ r g',
    @prepareImageUpload sample_crypto sample_media sample_image true
      [sample_key] = Some (r, g')
    ∧ dataBag r !! "keyim" = Some (sample_key ++ take 2 sample_image)
    ∧ "keyim" = @md5 sample_crypto (sample_key ++ take 2 sample_image)
    ∧ (@AesEcbDecrypt sample_crypto (aesKey r)
         (sample_key ++ take 2 sample_image) = sample_image
       ∨ true = true
         ∧ @createImageThumb sample_media sample_image 120
           = Some (@AesEcbDecrypt sample_crypto (aesKey r)
                     (sample_key ++ take 2 sample_image))).
Proof.
  eexists _, _. split; [vm_compute; reflexivity|].
  split; [vm_compute; reflexivity|].
  eapply (@image_bag_entries_decrypt sample_crypto sample_media sample_image
            true [sample_key]).
  - intros key data. apply drop_app_length.
  - vm_compute. reflexivity.
  - vm_compute. reflexivity.
Defined.

Lemma video_bag_entries_decrypt_witness :
  ∃ r g',
    @prepareVideoUpload sample_crypto sample_media sample_video_media
      sample_image [sample_key] = Some (r, g')
    ∧ v_dataBag r !! "keyimage" = Some (sample_key ++ sample_image)
    ∧ "keyimage" = @md5 sample_crypto (sample_key ++ sample_image)
    ∧ (@AesEcbDecrypt sample_crypto (v_aesKey r) (sample_key ++ sample_image)
       = sample_image
       ∨ @createVideoThumb sample_video_media sample_image 360
         = Some (@AesEcbDecrypt sample_crypto (v_aesKey r)
                   (sample_key ++ sample_image))).
Proof.
  eexists _, _. split; [vm_compute; reflexivity|].
  split; [vm_compute; reflexivity|].
  eapply (@video_bag_entries_decrypt sample_crypto sample_media
            sample_video_media sample_image [sample_key]).
  - intros key data. apply drop_app_length.
  - vm_compute. reflexivity.
  - vm_compute. reflexivity.
Defined.

Example video_upload_two_entries :
  (size ∘ v_dataBag ∘ fst)
    <$> @prepareVideoUpload sample_crypto sample_media sample_video_media
          sample_image [sample_key]
  = Some 2.
Proof. vm_compute. done. Qed.

End FileUtilsFacts.

(* ===================================================================== *)
(** * Properties of the text handed to the XML reader *)
(* ===================================================================== *)

Module AppMessageParserFacts.
Import AppMessageParser.

Lemma trimStart_ws (w s : JsString) :
  Forall (λ u, isWhiteSpace u = true) w → trimStart (w ++ s) = trimStart s.
Proof.
  induction 1 as [|u w Hu _ IH]; [done|]. cbn. by rewrite Hu.
Qed.

Lemma trimStart_head (s : JsString) u :
  head s = Some u → isWhiteSpace u = false → trimStart s = s.
Proof.
  destruct s as [|u' s]; [done|]. intros [= ->] Hu. cbn. by rewrite Hu.
Qed.

Lemma trim_core (w1 core w2 : JsString) u v :
  Forall (λ u, isWhiteSpace u = true) w1 →
  Forall (λ u, isWhiteSpace u = true) w2 →
  head core = Some u → isWhiteSpace u = false →
  last core = Some v → isWhiteSpace v = false →
  trim (w1 ++ core ++ w2) = core.
Proof.
  intros Hw1 Hw2 Hu Hnu Hv Hnv. unfold trim.
  rewrite trimStart_ws by done.
  rewrite (trimStart_head (core ++ w2) u); [| |done].
  - rewrite reverse_app, trimStart_ws by (by apply Forall_reverse).
    rewrite (trimStart_head (reverse core) v); [| |done].
    + apply reverse_involutive.
    + by rewrite head_reverse.
  - destruct core; [done|]. done.
Qed.

Lemma LF_not_in_MSG : LF ∉ MSG.
Proof.
  unfold LF, MSG. rewrite !not_elem_of_cons.
  split_and!; try done. apply not_elem_of_nil.
Qed.

Lemma startsWith_before_LF (a b t : JsString) :
  LF ∉ t → startsWith (a ++ LF :: b) t = true → startsWith a t = true.
Proof.
  revert a. induction t as [|x t IH]; intros a Ht; [done|].
  apply not_elem_of_cons in Ht as [Hx Ht].
  destruct a as [|y a]; cbn.
  - rewrite andb_true_iff, bool_decide_eq_true. intros [-> _]. done.
  - rewrite !andb_true_iff. intros [-> H]. split; [done|]. by apply IH.
Qed.

Lemma line_app (a b : JsString) : LF ∉ a → line (a ++ LF :: b) = a.
Proof.
  induction a as [|x a IH]; intros Ha; cbn.
  - by rewrite decide_True.
  - apply not_elem_of_cons in Ha as [Hx Ha].
    rewrite decide_False by done. by rewrite IH.
Qed.

Lemma line_no_LF (s : JsString) : LF ∉ line s.
Proof.
  induction s as [|x s IH]; cbn; [apply not_elem_of_nil|].
  case_decide; [apply not_elem_of_nil|].
  apply not_elem_of_cons. done.
Qed.

Lemma line_prefix (s : JsString) : s = line s ++ drop (length (line s)) s.
Proof.
  induction s as [|x s IH]; cbn; [done|].
  case_decide; cbn; [done|]. by rewrite <- IH.
Qed.

Lemma replace_first_line_shape (s : JsString) :
  replace_first_line s = s
  ∨ ∃ l, l ≠ [] ∧ (LF ∉ l) ∧ s = l ++ LF :: replace_first_line s.
Proof.
  unfold replace_first_line.
  pose proof (line_prefix s) as Hs. pose proof (line_no_LF s) as Hl.
  destruct (line s) as [|x l] eqn:Hline; [by left|].
  destruct (drop (length (x :: l)) s) as [|u rest] eqn:Hdrop; [by left|].
  case_decide as Hu; [|by left].
  right. exists (x :: l). subst u. done.
Qed.

(** X17: a text that, its surrounding white space apart, starts with
    ["<msg>"] goes to the XML reader as it is without that white space,
    however many lines it has. *)
Theorem tryXmlText_keeps_msg (ws1 body ws2 : JsString) (v : N)
    (Hws1 : Forall (λ u, isWhiteSpace u = true) ws1)
    (Hws2 : Forall (λ u, isWhiteSpace u = true) ws2)
    (Hlast : last (MSG ++ body) = Some v)
    (Hv : isWhiteSpace v = false) :
  tryXmlText (ws1 ++ (MSG ++ body) ++ ws2) = MSG ++ body.
Proof.
  unfold tryXmlText.
  rewrite (trim_core ws1 (MSG ++ body) ws2 60%N v) by done.
  unfold test_msg. cbn. done.
Qed.

(** X18: a text whose first line is a sender's name (a line that does not
    start with ["<msg>"]) loses exactly that line and its newline, along
    with the surrounding white space: what goes to the XML reader is what
    follows the first newline, whether or not it starts with ["<msg>"] and
    whatever further newlines it has. *)
Theorem tryXmlText_strips_first_line (ws1 sender xml ws2 : JsString) (u v : N)
    (Hws1 : Forall (λ u, isWhiteSpace u = true) ws1)
    (Hws2 : Forall (λ u, isWhiteSpace u = true) ws2)
    (Hhead : head sender = Some u)
    (Hu : isWhiteSpace u = false)
    (Hline : LF ∉ sender)
    (Hsender : startsWith sender MSG = false)
    (Hlast : last xml = Some v)
    (Hv : isWhiteSpace v = false) :
  tryXmlText (ws1 ++ (sender ++ LF :: xml) ++ ws2) = xml.
Proof.
  unfold tryXmlText.
  rewrite (trim_core ws1 (sender ++ LF :: xml) ws2 u v); try done.
  - assert (Htest : test_msg (sender ++ LF :: xml) = false).
    { unfold test_msg. apply not_true_is_false. intros Hs.
      apply startsWith_before_LF in Hs; [congruence|].
      apply LF_not_in_MSG. }
    rewrite Htest. cbn [negb].
    unfold replace_first_line. cbn zeta. rewrite line_app by done.
    destruct sender as [|x sender]; [done|].
    rewrite (drop_app_length (x :: sender)). by rewrite decide_True.
  - by destruct sender.
  - rewrite last_app. cbn [last]. rewrite last_cons, Hlast. done.
Qed.

(** X19: whatever the text, what goes to the XML reader is the trimmed
    text or the trimmed text without its first line: in the second case
    the line removed is not empty and has no newline in it.  So at most
    one line is ever dropped, and a trimmed text of one line is never
    shortened. *)
Theorem tryXmlText_shape (content : JsString) :
  (tryXmlText content = trim content
   ∨ ∃ l, l ≠ [] ∧ (LF ∉ l) ∧ startsWith l MSG = false
          ∧ trim content = l ++ LF :: tryXmlText content)
  ∧ (LF ∉ trim content → tryXmlText content = trim content)
  ∧ (startsWith (trim content) MSG = true → tryXmlText content = trim content).
Proof.
  assert (H : tryXmlText content = trim content
   ∨ ∃ l, l ≠ [] ∧ (LF ∉ l) ∧ startsWith l MSG = false
          ∧ trim content = l ++ LF :: tryXmlText content).
  { unfold tryXmlText. unfold test_msg.
    destruct (startsWith (trim content) MSG) eqn:Htest; cbn [negb]; [by left|].
    destruct (replace_first_line_shape (trim content)) as [|(l & Hl & Hn & Heq)];
      [by left|].
    right. exists l. split_and!; try done.
    apply not_true_is_false. intros Hs. rewrite Heq in Htest.
    assert (startsWith (l ++ LF :: replace_first_line (trim content)) MSG = true);
      [|congruence].
    clear -Hs. revert Hs. generalize MSG. induction l as [|x l IH]; intros t.
    - destruct t; [done|]. done.
    - destruct t as [|a t]; [done|]. cbn. rewrite !andb_true_iff.
      intros [? ?]. split; [done|]. by apply IH. }
  split_and!; [done| |].
  - intros Hno. destruct H as [|(l & _ & _ & _ & Heq)]; [done|].
    exfalso. apply Hno. rewrite Heq.
    apply elem_of_app. right. apply elem_of_cons. by left.
  - intros Hs. unfold tryXmlText, test_msg. by rewrite Hs.
Qed.

Lemma tryXmlText_keeps_msg_witness :
  tryXmlText ([32; 10]%N ++ (MSG ++ [104; 105]%N) ++ [13; 10]%N)
  = MSG ++ [104; 105]%N.
Proof.
  apply (tryXmlText_keeps_msg [32; 10]%N [104; 105]%N [13; 10]%N 105%N).
  - repeat constructor.
  - repeat constructor.
  - reflexivity.
  - reflexivity.
Defined.

Lemma tryXmlText_strips_first_line_witness :
  tryXmlText ([] ++ (sample_sender ++ LF :: sample_xml) ++ [LF]) = sample_xml.
Proof.
  apply (tryXmlText_strips_first_line [] sample_sender sample_xml [LF]
           119%N 62%N).
  - constructor.
  - repeat constructor.
  - reflexivity.
  - reflexivity.
  - unfold LF, sample_sender. rewrite !not_elem_of_cons.
    split_and!; try done. apply not_elem_of_nil.
  - reflexivity.
  - reflexivity.
  - reflexivity.
Defined.

End AppMessageParserFacts.
